(** * KeyFrameSystem: the keyframe interpolation engine

    A shallow embedding of [src/motion/MotionController.cpp] and of the
    keyframe parser of [src/motion/Utils.cpp], with the properties the
    specification states about them.

    Conventions of the embedding.
    - A C++ [float] is an exact rational ([Qc], canonical rationals with
      Leibniz equality).  Rounding, infinities and NaN are outside this model.
    - A C++ [int] is a [Z]; every [int] computation of the source is wrapped
      to 32 bits with [wrap_int].
    - [mutable] members changed by [const] methods are threaded explicitly:
      a method returns its value together with the new controller.
    - Reading a [std::vector] outside its bounds is the error [OutOfBounds];
      a loop that has not finished when its fuel is spent is [OutOfFuel];
      an exception of [std::stof] is [InvalidArgument].
    - The GLM library (matrices, quaternions, trigonometry) is not part of the
      repository: its operations are the fields of the class [Glm]. *)

From Stdlib Require Import QArith Qcanon Qround Qabs Qcabs ZArith Lia Lqa.
From Stdlib Require Import List Bool Ascii String.
Import ListNotations.

Open Scope Z_scope.
Open Scope Qc_scope.

(** ** Scalars *)

(** A floating-point literal of the source. *)
Definition fl (q : Q) : Qc := Q2Qc q.

Definition Qcleb (a b : Qc) : bool := Qle_bool a b.
Definition Qcltb (a b : Qc) : bool := negb (Qle_bool b a).

Infix "<=?" := Qcleb (at level 70, no associativity) : Qc_scope.
Infix "<?" := Qcltb (at level 70, no associativity) : Qc_scope.

(** [std::abs], [std::max], [std::min] and [glm::clamp] on floats. *)
Definition fabs (x : Qc) : Qc := if x <? 0 then - x else x.
Definition fmax (a b : Qc) : Qc := if a <? b then b else a.
Definition fmin (a b : Qc) : Qc := if b <? a then b else a.
Definition clamp (x lo hi : Qc) : Qc := fmin (fmax x lo) hi.

(** Two's-complement wrap of an [int]. *)
Definition wrap_int (z : Z) : Z := ((z + 2 ^ 31) mod 2 ^ 32 - 2 ^ 31)%Z.

(** ** Results of fallible code *)

Inductive error : Type :=
| OutOfBounds
| OutOfFuel
| InvalidArgument.

Inductive result (A : Type) : Type :=
| Ok (a : A)
| Err (e : error).

Arguments Ok {A} a.
Arguments Err {A} e.

Definition bind {A B : Type} (c : result A) (k : A -> result B) : result B :=
  match c with
  | Ok a => k a
  | Err e => Err e
  end.

Notation "x <- c ;; k" := (bind c (fun x => k))
  (at level 61, c at next level, right associativity).

Fixpoint mapM {A B : Type} (f : A -> result B) (l : list A) : result (list B) :=
  match l with
  | [] => Ok []
  | a :: l' => b <- f a ;; bs <- mapM f l' ;; Ok (b :: bs)
  end.

(** [while (cond(s)) s = body(s);] *)
Fixpoint while_loop {St : Type} (fuel : nat) (cond : St -> bool)
  (body : St -> St) (s : St) : result St :=
  match fuel with
  | O => Err OutOfFuel
  | S fuel' => if cond s then while_loop fuel' cond body (body s) else Ok s
  end.

(** ** Vectors *)

Record vec3 : Type := mkVec3 { vx : Qc; vy : Qc; vz : Qc }.

Inductive axis : Type := AxisX | AxisY | AxisZ.

Definition vec3_get (v : vec3) (i : axis) : Qc :=
  match i with
  | AxisX => vx v
  | AxisY => vy v
  | AxisZ => vz v
  end.

Definition vec3_set (v : vec3) (i : axis) (x : Qc) : vec3 :=
  match i with
  | AxisX => mkVec3 x (vy v) (vz v)
  | AxisY => mkVec3 (vx v) x (vz v)
  | AxisZ => mkVec3 (vx v) (vy v) x
  end.

Definition vadd (a b : vec3) : vec3 :=
  mkVec3 (vx a + vx b) (vy a + vy b) (vz a + vz b).
Definition vsub (a b : vec3) : vec3 :=
  mkVec3 (vx a - vx b) (vy a - vy b) (vz a - vz b).
Definition vneg (a : vec3) : vec3 := mkVec3 (- vx a) (- vy a) (- vz a).
(** [s * v] and [v * s] *)
Definition smulv (s : Qc) (a : vec3) : vec3 :=
  mkVec3 (s * vx a) (s * vy a) (s * vz a).
Definition vmuls (a : vec3) (s : Qc) : vec3 :=
  mkVec3 (vx a * s) (vy a * s) (vz a * s).

Declare Scope vec_scope.
Delimit Scope vec_scope with vec.
Bind Scope vec_scope with vec3.
Infix "+" := vadd : vec_scope.
Infix "-" := vsub : vec_scope.
Notation "- a" := (vneg a) : vec_scope.
Infix "*:" := smulv (at level 40, left associativity) : vec_scope.
Infix ":*" := vmuls (at level 40, left associativity) : vec_scope.

(** ** The GLM operations the controller calls *)

Class Glm : Type := {
  mat4 : Type;
  quat : Type;
  (** [glm::mat4(1.0f)] *)
  mat4_identity : mat4;
  (** [glm::translate(m, v)] *)
  translate : mat4 -> vec3 -> mat4;
  (** [glm::rotate(m, angle, axis)], the angle in radians *)
  rotate : mat4 -> Qc -> vec3 -> mat4;
  (** [glm::radians(degrees)] *)
  radians : Qc -> Qc;
  (** [glm::mat4_cast(q)] *)
  mat4_cast : quat -> mat4;
  (** [a * b] on matrices *)
  mat4_mul : mat4 -> mat4 -> mat4;
  (** [glm::slerp(x, y, a)] *)
  slerp : quat -> quat -> Qc -> quat;
  (** [glm::quat(eulerAngles)], the angles in radians *)
  quat_of_euler : vec3 -> quat
}.

(** The laws of GLM, in exact arithmetic, that some of the properties below
    rest on: slerp starts at its first argument and ends on the rotation of
    its second one (GLM may return the opposite quaternion, which is the same
    rotation), and a rotation by an angle does not change when the angle
    grows by a full turn. *)
Class GlmLaws (G : Glm) : Prop := {
  slerp_start : forall x y : quat, slerp x y 0 = x;
  slerp_end : forall x y : quat, mat4_cast (slerp x y 1) = mat4_cast y;
  rotate_full_turn : forall (m : mat4) (deg : Qc) (k : Z) (ax : vec3),
    rotate m (radians (deg + fl 360 * fl (inject_Z k))) ax
    = rotate m (radians deg) ax
}.

Section Controller.

Context {G : Glm}.

(** ** Data model (MotionController.h) *)

Record KeyFrame : Type := mkKeyFrame {
  position : vec3;
  eulerAngles : vec3;  (* in degrees *)
  quaternion : quat;
  time : Qc
}.

Definition radians3 (v : vec3) : vec3 :=
  mkVec3 (radians (vx v)) (radians (vy v)) (radians (vz v)).

(** [KeyFrame::KeyFrame(glm::vec3 pos, glm::vec3 euler, float t)] *)
Definition KeyFrame_of_euler (pos euler : vec3) (t : Qc) : KeyFrame :=
  {| position := pos;
     eulerAngles := euler;
     quaternion := quat_of_euler (radians3 euler);
     time := t |}.

Record SegmentData : Type := mkSegmentData {
  p0 : vec3; p1 : vec3; p2 : vec3; p3 : vec3;
  e0 : vec3; e1 : vec3; e2 : vec3; e3 : vec3;
  q1 : quat; q2 : quat;
  startTime : Qc; endTime : Qc;
  duration : Qc
}.

Record Controller : Type := mkController {
  keyframes : list KeyFrame;
  lastSegment : Z;
  lastTime : Qc;
  cachedTransform : mat4;
  segments : list SegmentData;
  segmentsCached : bool
}.

(** A freshly constructed controller (the member initialisers of the class). *)
Definition newController : Controller :=
  {| keyframes := [];
     lastSegment := 0;
     lastTime := fl (-1);
     cachedTransform := mat4_identity;
     segments := [];
     segmentsCached := false |}.

(** [v[i]] for an [int] or [size_t] index. *)
Definition at_index {A : Type} (l : list A) (i : Z) : result A :=
  if (i <? 0)%Z then Err OutOfBounds
  else match nth_error l (Z.to_nat i) with
       | Some a => Ok a
       | None => Err OutOfBounds
       end.

(** ** normalizeAngles *)

(** Fuel for the two loops on one axis: the difference counted in turns. *)
Definition turns (d : Qc) : nat :=
  S (Z.to_nat (Qceiling (Qabs d / 360))).

Definition normalizeAxis (res reference : vec3) (i : axis) : result vec3 :=
  r1 <- while_loop (turns (vec3_get res i - vec3_get reference i))
          (fun r => fl 180 <? vec3_get r i - vec3_get reference i)
          (fun r => vec3_set r i (vec3_get r i - fl 360))
          res ;;
  while_loop (turns (vec3_get r1 i - vec3_get reference i))
    (fun r => vec3_get r i - vec3_get reference i <? fl (-180))
    (fun r => vec3_set r i (vec3_get r i + fl 360))
    r1.

Definition normalizeAngles (angles reference : vec3) : result vec3 :=
  r0 <- normalizeAxis angles reference AxisX ;;
  r1 <- normalizeAxis r0 reference AxisY ;;
  normalizeAxis r1 reference AxisZ.

(** ** precomputeSegments *)

(** The body of the loop, for the index [i]. *)
Definition makeSegment (kfs : list KeyFrame) (i : nat) : result SegmentData :=
  let size := List.length kfs in
  k0 <- at_index kfs (Z.max 0 (wrap_int (Z.of_nat i) - 1)) ;;
  k1 <- at_index kfs (Z.of_nat i) ;;
  k2 <- at_index kfs (Z.of_nat (i + 1)) ;;
  k3 <- at_index kfs (Z.of_nat (Nat.min (i + 2) (size - 1))) ;;
  e0' <- normalizeAngles (eulerAngles k0) (eulerAngles k1) ;;
  e2' <- normalizeAngles (eulerAngles k2) (eulerAngles k1) ;;
  e3' <- normalizeAngles (eulerAngles k3) e2' ;;
  Ok {| p0 := position k0; p1 := position k1;
        p2 := position k2; p3 := position k3;
        e0 := e0'; e1 := eulerAngles k1; e2 := e2'; e3 := e3';
        q1 := quaternion k1; q2 := quaternion k2;
        startTime := time k1; endTime := time k2;
        duration := time k2 - time k1 |}.

(** [for (size_t i = 0; i < keyframes.size() - 1; i++)] *)
Definition buildSegments (kfs : list KeyFrame) : result (list SegmentData) :=
  mapM (makeSegment kfs) (seq 0 (List.length kfs - 1)).

Definition precomputeSegments (c : Controller) : result Controller :=
  if segmentsCached c || (List.length (keyframes c) <? 2)%nat then Ok c
  else
    segs <- buildSegments (keyframes c) ;;
    Ok {| keyframes := keyframes c;
          lastSegment := lastSegment c;
          lastTime := lastTime c;
          cachedTransform := cachedTransform c;
          segments := segs;
          segmentsCached := true |}.

(** ** findSegment *)

(** [time >= segments[i].startTime && time <= segments[i].endTime] *)
Definition inSegment (segs : list SegmentData) (i : Z) (t : Qc) : result bool :=
  s <- at_index segs i ;;
  Ok ((startTime s <=? t) && (t <=? endTime s)).

(** The binary search and the clamp that follows it. *)
Fixpoint binarySearch (fuel : nat) (segs : list SegmentData) (t : Qc)
  (left right : Z) : result Z :=
  match fuel with
  | O => Err OutOfFuel
  | S fuel' =>
      if (left <=? right)%Z then
        let mid := Z.quot (wrap_int (left + right)) 2 in
        s <- at_index segs mid ;;
        if t <? startTime s then
          binarySearch fuel' segs t left (wrap_int (mid - 1))
        else if endTime s <? t then
          binarySearch fuel' segs t (wrap_int (mid + 1)) right
        else Ok mid
      else
        Ok (Z.max 0
              (Z.min right
                 (wrap_int (wrap_int (Z.of_nat (List.length segs)) - 1))))
  end.

Definition findSegment (c : Controller) (t : Qc) : result Z :=
  if (List.length (keyframes c) <? 2)%nat then Ok 0%Z
  else
    let segs := segments c in
    let size := wrap_int (Z.of_nat (List.length segs)) in
    let last := lastSegment c in
    same <- (if (last <? size)%Z then inSegment segs last t else Ok false) ;;
    if same then Ok last
    else
      next <- (if (wrap_int (last + 1) <? size)%Z
               then inSegment segs (wrap_int (last + 1)) t else Ok false) ;;
      if next then Ok (wrap_int (last + 1))
      else
        prev <- (if (0 <? last)%Z
                 then inSegment segs (wrap_int (last - 1)) t else Ok false) ;;
        if prev then Ok (wrap_int (last - 1))
        else
          binarySearch (S (List.length segs)) segs t 0
            (wrap_int (Z.of_nat (List.length segs) - 1)).

(** ** The spline blends *)

Definition fastCatmullRomPosition (t : Qc) (seg : SegmentData) : vec3 :=
  let t2 := t * t in
  let t3 := t2 * t in
  (fl 0.5 *: (fl 2 *: p1 seg
              + (- p0 seg + p2 seg) :* t
              + (fl 2 *: p0 seg - fl 5 *: p1 seg + fl 4 *: p2 seg - p3 seg) :* t2
              + (- p0 seg + fl 3 *: p1 seg - fl 3 *: p2 seg + p3 seg) :* t3))%vec.

Definition fastCatmullRomEuler (t : Qc) (seg : SegmentData) : vec3 :=
  let t2 := t * t in
  let t3 := t2 * t in
  (fl 0.5 *: (fl 2 *: e1 seg
              + (- e0 seg + e2 seg) :* t
              + (fl 2 *: e0 seg - fl 5 *: e1 seg + fl 4 *: e2 seg - e3 seg) :* t2
              + (- e0 seg + fl 3 *: e1 seg - fl 3 *: e2 seg + e3 seg) :* t3))%vec.

Definition fastBSplinePosition (t : Qc) (seg : SegmentData) : vec3 :=
  let t2 := t * t in
  let t3 := t2 * t in
  ((fl 1 / fl 6)
   *: ((- t3 + fl 3 * t2 - fl 3 * t + fl 1) *: p0 seg
       + (fl 3 * t3 - fl 6 * t2 + fl 4) *: p1 seg
       + (- (fl 3) * t3 + fl 3 * t2 + fl 3 * t + fl 1) *: p2 seg
       + t3 *: p3 seg))%vec.

Definition fastBSplineEuler (t : Qc) (seg : SegmentData) : vec3 :=
  let t2 := t * t in
  let t3 := t2 * t in
  ((fl 1 / fl 6)
   *: ((- t3 + fl 3 * t2 - fl 3 * t + fl 1) *: e0 seg
       + (fl 3 * t3 - fl 6 * t2 + fl 4) *: e1 seg
       + (- (fl 3) * t3 + fl 3 * t2 + fl 3 * t + fl 1) *: e2 seg
       + t3 *: e3 seg))%vec.

(** ** Mutations of the store *)

Definition addKeyFrame (c : Controller) (kf : KeyFrame) : Controller :=
  {| keyframes := keyframes c ++ [kf];
     lastSegment := lastSegment c;
     lastTime := fl (-1);
     cachedTransform := cachedTransform c;
     segments := segments c;
     segmentsCached := false |}.

Definition addMultipleKeyFrames (c : Controller) (kfs : list KeyFrame)
  : Controller :=
  {| keyframes := fold_left (fun ks kf => ks ++ [kf]) kfs (keyframes c);
     lastSegment := lastSegment c;
     lastTime := fl (-1);
     cachedTransform := cachedTransform c;
     segments := segments c;
     segmentsCached := false |}.

Definition clearKeyFrames (c : Controller) : Controller :=
  {| keyframes := [];
     lastSegment := 0;
     lastTime := fl (-1);
     cachedTransform := cachedTransform c;
     segments := [];
     segmentsCached := false |}.

(** ** getTransformationMatrix *)

(** The rotation about X, then Y, then Z, of Euler angles in degrees. *)
Definition eulerRotation (e : vec3) : mat4 :=
  rotate
    (rotate
       (rotate mat4_identity (radians (vx e)) (mkVec3 1 0 0))
       (radians (vy e)) (mkVec3 0 1 0))
    (radians (vz e)) (mkVec3 0 0 1).

(** The pose of one keyframe: [translation * rotation]. *)
Definition keyframePose (useQuat : bool) (kf : KeyFrame) : mat4 :=
  let translation := translate mat4_identity (position kf) in
  let rotation := if useQuat then mat4_cast (quaternion kf)
                  else eulerRotation (eulerAngles kf) in
  mat4_mul translation rotation.

(** The interpolation parameter of a segment at a query time. *)
Definition segmentParameter (seg : SegmentData) (t : Qc) : Qc :=
  if 0 <? duration seg
  then clamp ((t - startTime seg) / duration seg) 0 1
  else 0.

Definition segmentPosition (useBSplines : bool) (t : Qc) (seg : SegmentData)
  : vec3 :=
  if useBSplines then fastBSplinePosition t seg
  else fastCatmullRomPosition t seg.

Definition segmentRotation (useQuat useBSplines : bool) (t : Qc)
  (seg : SegmentData) : mat4 :=
  if useQuat then mat4_cast (slerp (q1 seg) (q2 seg) t)
  else eulerRotation (if useBSplines then fastBSplineEuler t seg
                      else fastCatmullRomEuler t seg).

(** Which [return] of the method produced the value (a ghost tag). *)
Inductive Branch : Type :=
| EmptyStore
| CacheHit
| SingleKeyFrame
| EndOfAnimation
| InSegment.

Definition TIME_EPSILON : Qc := fl 0.0001.

(** The state after [lastTime = time; cachedTransform = m;]. *)
Definition remember (c : Controller) (t : Qc) (m : mat4) : Controller :=
  {| keyframes := keyframes c;
     lastSegment := lastSegment c;
     lastTime := t;
     cachedTransform := m;
     segments := segments c;
     segmentsCached := segmentsCached c |}.

Definition setLastSegment (c : Controller) (i : Z) : Controller :=
  {| keyframes := keyframes c;
     lastSegment := i;
     lastTime := lastTime c;
     cachedTransform := cachedTransform c;
     segments := segments c;
     segmentsCached := segmentsCached c |}.

Definition cacheHit (c : Controller) (t : Qc) : bool :=
  (fabs (t - lastTime c) <? TIME_EPSILON) && (0 <=? lastTime c).

Definition getTransformationMatrix_traced (c : Controller) (t : Qc)
  (useQuat useBSplines : bool) : result (Branch * mat4 * Controller) :=
  match keyframes c with
  | [] => Ok (EmptyStore, mat4_identity, c)
  | kf0 :: rest =>
      if cacheHit c t then Ok (CacheHit, cachedTransform c, c)
      else
        match rest with
        | [] =>
            let m := keyframePose useQuat kf0 in
            Ok (SingleKeyFrame, m, remember c t m)
        | _ :: _ =>
            c1 <- precomputeSegments c ;;
            currentSegment <- findSegment c1 t ;;
            let c2 := setLastSegment c1 currentSegment in
            if (wrap_int (Z.of_nat (List.length (segments c2)))
                <=? currentSegment)%Z
            then
              lastKF <- at_index (keyframes c2)
                          (Z.of_nat (List.length (keyframes c2)) - 1) ;;
              let m := keyframePose useQuat lastKF in
              Ok (EndOfAnimation, m, remember c2 t m)
            else
              seg <- at_index (segments c2) currentSegment ;;
              let tp := segmentParameter seg t in
              let pos := segmentPosition useBSplines tp seg in
              let rotation := segmentRotation useQuat useBSplines tp seg in
              let m := mat4_mul (translate mat4_identity pos) rotation in
              Ok (InSegment, m, remember c2 t m)
        end
  end.

Definition getTransformationMatrix (c : Controller) (t : Qc)
  (useQuat useBSplines : bool) : result (mat4 * Controller) :=
  r <- getTransformationMatrix_traced c t useQuat useBSplines ;;
  Ok (snd (fst r), snd r).

Definition getTotalTime (c : Controller) : Qc :=
  match nth_error (keyframes c) (List.length (keyframes c) - 1) with
  | Some kf => time kf
  | None => 0
  end.

Definition getKeyFrameCount (c : Controller) : nat :=
  List.length (keyframes c).

End Controller.

(** ** The public interface as a transition system *)

Section Reachability.

Context {G : Glm}.

Inductive Operation : Type :=
| OpAddKeyFrame (kf : KeyFrame)
| OpAddMultipleKeyFrames (kfs : list KeyFrame)
| OpClearKeyFrames
| OpGetTransformationMatrix (t : Qc) (useQuat useBSplines : bool).

Definition run (c : Controller) (op : Operation) : result Controller :=
  match op with
  | OpAddKeyFrame kf => Ok (addKeyFrame c kf)
  | OpAddMultipleKeyFrames kfs => Ok (addMultipleKeyFrames c kfs)
  | OpClearKeyFrames => Ok (clearKeyFrames c)
  | OpGetTransformationMatrix t useQuat useBSplines =>
      r <- getTransformationMatrix c t useQuat useBSplines ;; Ok (snd r)
  end.

(** The states a controller can be in: those a sequence of calls of its
    public methods leads to from a new controller. *)
Inductive reachable : Controller -> Prop :=
| reachable_new : reachable newController
| reachable_run (c c' : Controller) (op : Operation) :
    reachable c -> run c op = Ok c' -> reachable c'.

(** Keyframe times strictly increasing along the store. *)
Definition strictlyIncreasing (kfs : list KeyFrame) : Prop :=
  forall (i j : nat) (a b : KeyFrame),
    nth_error kfs i = Some a -> nth_error kfs j = Some b ->
    (i < j)%nat -> time a < time b.

End Reachability.

(** ** Predicates used to state the properties *)

Section Predicates.

Context {G : Glm}.

(** The store is small enough for its indices to fit an [int] with room for
    the sum of two of them. *)
Definition smallStore (c : Controller) : Prop :=
  (Z.of_nat (List.length (keyframes c)) <= 2 ^ 30)%Z.

(** What the public methods maintain. *)
Definition wellFormed (c : Controller) : Prop :=
  (smallStore c ->
   (0 <= lastSegment c
    <= Z.max 0 (Z.of_nat (List.length (keyframes c)) - 2))%Z)
  /\ (segmentsCached c = true -> buildSegments (keyframes c) = Ok (segments c)).

(** [seg] is the segment between the keyframes [i] and [i + 1] of [kfs]. *)
Definition segmentOf (kfs : list KeyFrame) (i : nat) (seg : SegmentData)
  : Prop :=
  exists k0 k1 k2 k3 : KeyFrame,
    nth_error kfs (i - 1) = Some k0
    /\ nth_error kfs i = Some k1
    /\ nth_error kfs (i + 1) = Some k2
    /\ nth_error kfs (Nat.min (i + 2) (List.length kfs - 1)) = Some k3
    /\ p0 seg = position k0 /\ p1 seg = position k1
    /\ p2 seg = position k2 /\ p3 seg = position k3
    /\ normalizeAngles (eulerAngles k0) (eulerAngles k1) = Ok (e0 seg)
    /\ e1 seg = eulerAngles k1
    /\ normalizeAngles (eulerAngles k2) (eulerAngles k1) = Ok (e2 seg)
    /\ normalizeAngles (eulerAngles k3) (e2 seg) = Ok (e3 seg)
    /\ q1 seg = quaternion k1 /\ q2 seg = quaternion k2
    /\ startTime seg = time k1 /\ endTime seg = time k2
    /\ duration seg = time k2 - time k1.

(** Each segment ends where the next one starts. *)
Definition contiguous (segs : list SegmentData) : Prop :=
  forall (j : nat) (a b : SegmentData),
    nth_error segs j = Some a -> nth_error segs (S j) = Some b ->
    endTime a = startTime b.

(** What [findSegment] promises about the index [i] it returns for [t]:
    the segment holds [t], or [t] lies before the first segment and [i] is
    the first, or [t] lies after the last segment and [i] is the last. *)
Definition located (segs : list SegmentData) (t : Qc) (i : Z) : Prop :=
  exists s : SegmentData,
    (0 <= i)%Z
    /\ nth_error segs (Z.to_nat i) = Some s
    /\ ((startTime s <= t /\ t <= endTime s)
        \/ (i = 0%Z /\ t < startTime s)
        \/ (i = (Z.of_nat (List.length segs) - 1)%Z /\ endTime s < t)).

(** The controller once its segment array holds [segs], freshly built. *)
Definition withSegments (c : Controller) (segs : list SegmentData)
  : Controller :=
  {| keyframes := keyframes c;
     lastSegment := lastSegment c;
     lastTime := lastTime c;
     cachedTransform := cachedTransform c;
     segments := segs;
     segmentsCached := true |}.

(** The transform of a query that falls in the segment [seg]. *)
Definition segmentTransform (useQuat useBSplines : bool) (seg : SegmentData)
  (t : Qc) : mat4 :=
  let tp := segmentParameter seg t in
  mat4_mul (translate mat4_identity (segmentPosition useBSplines tp seg))
    (segmentRotation useQuat useBSplines tp seg).

(** A mutation of the store. *)
Inductive Mutation : Type :=
| Append (kf : KeyFrame)
| AppendBatch (kfs : list KeyFrame)
| Clear.

Definition mutate (c : Controller) (m : Mutation) : Controller :=
  match m with
  | Append kf => addKeyFrame c kf
  | AppendBatch kfs => addMultipleKeyFrames c kfs
  | Clear => clearKeyFrames c
  end.

End Predicates.

(** ** parseKeyFramesFromString (Utils.cpp) *)

(** The lines that successive calls of [std::getline(stream, line, delim)]
    extract from a stream holding [s]: [line] is the text read so far and
    [extracted] tells whether the current call has consumed a character. *)
Fixpoint getlines (delim : ascii) (s : string) (line : string)
  (extracted : bool) : list string :=
  match s with
  | EmptyString => if extracted then [line] else []
  | String ch rest =>
      if Ascii.eqb ch delim then line :: getlines delim rest EmptyString false
      else getlines delim rest (line ++ String ch EmptyString) true
  end.

Definition axis_of_index (n : nat) : option axis :=
  match n with
  | 0%nat => Some AxisX
  | 1%nat => Some AxisY
  | 2%nat => Some AxisZ
  | _ => None
  end.

Fixpoint foldM {A B : Type} (f : A -> B -> result A) (l : list B) (a : A)
  : result A :=
  match l with
  | [] => Ok a
  | b :: l' => a' <- f a b ;; foldM f l' a'
  end.

Section Parser.

Context {G : Glm}.

(** [std::stof]: the value, or the exception it throws. *)
Variable stof : string -> result Qc.

(** The content of a [glm::vec3] that is declared and not initialised. *)
Variable indeterminate : vec3.

(** [while (std::getline(stream, coord, ',') && index < 3)
       v[index++] = std::stof(coord);] *)
Fixpoint parseComponents (coords : list string) (index : nat) (v : vec3)
  : result vec3 :=
  match coords with
  | [] => Ok v
  | coord :: rest =>
      match axis_of_index index with
      | None => Ok v
      | Some ax =>
          x <- stof coord ;;
          parseComponents rest (S index) (vec3_set v ax x)
      end
  end.

Record ParserState : Type := mkParserState {
  parsedFrames : list KeyFrame;
  nextTime : Qc;
  diagnostics : list string  (* the lines written to std::cerr *)
}.

Definition timeStep : Qc := fl 2.

(** The body of the loop over the semicolon-separated groups. *)
Definition parseGroup (st : ParserState) (keyframeData : string)
  : result ParserState :=
  if (String.length keyframeData =? 0)%nat then Ok st
  else
    match String.index 0 ":" keyframeData with
    | None =>
        Ok {| parsedFrames := parsedFrames st;
              nextTime := nextTime st;
              diagnostics :=
                diagnostics st
                ++ [("Invalid keyframe format: " ++ keyframeData)%string] |}
    | Some colonPos =>
        let posStr := substring 0 colonPos keyframeData in
        let rotStr :=
          substring (colonPos + 1)
            (String.length keyframeData - (colonPos + 1)) keyframeData in
        pos <- parseComponents (getlines "," posStr EmptyString false) 0
                 indeterminate ;;
        euler <- parseComponents (getlines "," rotStr EmptyString false) 0
                   indeterminate ;;
        Ok {| parsedFrames :=
                parsedFrames st ++ [KeyFrame_of_euler pos euler (nextTime st)];
              nextTime := nextTime st + timeStep;
              diagnostics := diagnostics st |}
    end.

Record ParseOutcome : Type := mkParseOutcome {
  returned : bool;
  controllerAfter : option Controller;
  errorOutput : list string
}.

(** The controller is passed by pointer: [None] is the null pointer. *)
Definition parseKeyFramesFromString (keyframeStr : string)
  (controller : option Controller) : result ParseOutcome :=
  match controller with
  | None => Ok (mkParseOutcome false controller [])
  | Some c =>
      if (String.length keyframeStr =? 0)%nat
      then Ok (mkParseOutcome false controller [])
      else
        st <- foldM parseGroup (getlines ";" keyframeStr EmptyString false)
                (mkParserState [] (fl 0) []) ;;
        match parsedFrames st with
        | [] => Ok (mkParseOutcome false controller (diagnostics st))
        | _ :: _ =>
            Ok (mkParseOutcome true
                  (Some (addMultipleKeyFrames (clearKeyFrames c)
                           (parsedFrames st)))
                  (diagnostics st))
        end
  end.

End Parser.

(** The semicolon-separated groups of a specification, and whether a group
    holds a colon. *)
Definition groupsOf (keyframeStr : string) : list string :=
  getlines ";" keyframeStr EmptyString false.

Definition hasColon (keyframeData : string) : bool :=
  match String.index 0 ":" keyframeData with
  | Some _ => true
  | None => false
  end.

(** The groups that the parser reports: those that are not empty and hold
    no colon. *)
Definition reported (keyframeData : string) : bool :=
  negb (String.length keyframeData =? 0)%nat && negb (hasColon keyframeData).

(** [std::stof] on a plain decimal literal: blanks, an optional sign,
    digits, and an optional fraction; what follows is ignored, and a text
    without a digit is an [std::invalid_argument].  Exponents, hexadecimal
    literals, infinities and NaN are not covered. *)
Definition digit_of (ch : ascii) : option Z :=
  let n := nat_of_ascii ch in
  if ((48 <=? n) && (n <=? 57))%nat then Some (Z.of_nat n - 48)%Z else None.

Fixpoint skip_blanks (s : string) : string :=
  match s with
  | String ch rest => if Ascii.eqb ch " " then skip_blanks rest else s
  | EmptyString => s
  end.

(** Reads digits: the number read, how many digits, and the rest. *)
Fixpoint read_digits (s : string) (acc : Z) (count : nat)
  : Z * nat * string :=
  match s with
  | String ch rest =>
      match digit_of ch with
      | Some d => read_digits rest (10 * acc + d)%Z (S count)
      | None => (acc, count, s)
      end
  | EmptyString => (acc, count, s)
  end.

Definition stof_decimal (s : string) : result Qc :=
  let s0 := skip_blanks s in
  let '(negative, s1) :=
    match s0 with
    | String "-" rest => (true, rest)
    | String "+" rest => (false, rest)
    | _ => (false, s0)
    end in
  let '(whole, nwhole, s2) := read_digits s1 0 0 in
  let '(frac, nfrac) :=
    match s2 with
    | String "." rest => let '(f, n, _) := read_digits rest 0 0 in (f, n)
    | _ => (0%Z, 0%nat)
    end in
  if (nwhole + nfrac =? 0)%nat then Err InvalidArgument
  else
    let magnitude :=
      fl (inject_Z whole)
      + fl (inject_Z frac) / fl (inject_Z (10 ^ Z.of_nat nfrac)) in
    Ok (if negative then - magnitude else magnitude).

(** ** More of the controller's interface, for the further properties *)

Section MorePredicates.

Context {G : Glm}.

(** The controller with its segment array marked stale. *)
Definition markStale (c : Controller) : Controller :=
  {| keyframes := keyframes c;
     lastSegment := lastSegment c;
     lastTime := lastTime c;
     cachedTransform := cachedTransform c;
     segments := segments c;
     segmentsCached := false |}.

(** The matrix a query returns, without the controller. *)
Definition valueOnly (r : result (mat4 * Controller)) : result mat4 :=
  match r with
  | Ok r => Ok (fst r)
  | Err e => Err e
  end.

(** The four position control points of a segment. *)
Definition controlPoints (seg : SegmentData) : list vec3 :=
  [p0 seg; p1 seg; p2 seg; p3 seg].

End MorePredicates.

(** ** The callers (Utils.h, Utils.cpp, main.cpp) *)

Record ProgramConfig : Type := mkProgramConfig {
  useQuaternions : bool;
  useBSpline : bool;
  objFilename : string;
  keyframeString : string;
  keyframesProvided : bool;
  showHelp : bool;
  vertexShaderPath : string;
  fragmentShaderPath : string
}.

(** The member initialisers of [ProgramConfig]. *)
Definition initialConfig : ProgramConfig :=
  {| useQuaternions := true;
     useBSpline := false;
     objFilename := "";
     keyframeString := "";
     keyframesProvided := false;
     showHelp := false;
     vertexShaderPath := "assets/shaders/vertex.glsl";
     fragmentShaderPath := "assets/shaders/fragment.glsl" |}.

Definition setUseQuaternions (config : ProgramConfig) (b : bool)
  : ProgramConfig :=
  {| useQuaternions := b;
     useBSpline := useBSpline config;
     objFilename := objFilename config;
     keyframeString := keyframeString config;
     keyframesProvided := keyframesProvided config;
     showHelp := showHelp config;
     vertexShaderPath := vertexShaderPath config;
     fragmentShaderPath := fragmentShaderPath config |}.

Definition setUseBSpline (config : ProgramConfig) (b : bool) : ProgramConfig :=
  {| useQuaternions := useQuaternions config;
     useBSpline := b;
     objFilename := objFilename config;
     keyframeString := keyframeString config;
     keyframesProvided := keyframesProvided config;
     showHelp := showHelp config;
     vertexShaderPath := vertexShaderPath config;
     fragmentShaderPath := fragmentShaderPath config |}.

(** [config.keyframeString = value; config.keyframesProvided = true;] *)
Definition setKeyframeString (config : ProgramConfig) (value : string)
  : ProgramConfig :=
  {| useQuaternions := useQuaternions config;
     useBSpline := useBSpline config;
     objFilename := objFilename config;
     keyframeString := value;
     keyframesProvided := true;
     showHelp := showHelp config;
     vertexShaderPath := vertexShaderPath config;
     fragmentShaderPath := fragmentShaderPath config |}.

Definition setObjFilename (config : ProgramConfig) (value : string)
  : ProgramConfig :=
  {| useQuaternions := useQuaternions config;
     useBSpline := useBSpline config;
     objFilename := value;
     keyframeString := keyframeString config;
     keyframesProvided := keyframesProvided config;
     showHelp := showHelp config;
     vertexShaderPath := vertexShaderPath config;
     fragmentShaderPath := fragmentShaderPath config |}.

Definition setShowHelp (config : ProgramConfig) : ProgramConfig :=
  {| useQuaternions := useQuaternions config;
     useBSpline := useBSpline config;
     objFilename := objFilename config;
     keyframeString := keyframeString config;
     keyframesProvided := keyframesProvided config;
     showHelp := true;
     vertexShaderPath := vertexShaderPath config;
     fragmentShaderPath := fragmentShaderPath config |}.

(** [i + 1 < argc], for the arguments [rest] that follow [argv[i]]. *)
Definition hasNext (rest : list string) : bool :=
  match rest with
  | [] => false
  | _ :: _ => true
  end.

(** The loop of [parseCommandLine] from the argument [argv[i]] on: what the
    function returns, the configuration it leaves, and the lines it writes
    to [std::cerr] (what it writes to [std::cout] is left out). *)
Fixpoint parseArguments (args : list string) (config : ProgramConfig)
  : bool * ProgramConfig * list string :=
  match args with
  | [] => (true, config, [])
  | arg :: rest =>
      if (arg =? "-ot")%string && hasNext rest then
        match rest with
        | orientationType :: rest' =>
            if (orientationType =? "quat")%string
               || (orientationType =? "quaternion")%string
               || (orientationType =? "0")%string
            then parseArguments rest' (setUseQuaternions config true)
            else if (orientationType =? "euler")%string
                    || (orientationType =? "1")%string
            then parseArguments rest' (setUseQuaternions config false)
            else (false, config,
                  [("Invalid orientation type: " ++ orientationType)%string]%list)
        | [] => (false, config, [])
        end
      else if (arg =? "-it")%string && hasNext rest then
        match rest with
        | interpolationType :: rest' =>
            if (interpolationType =? "crspline")%string
               || (interpolationType =? "catmullrom")%string
               || (interpolationType =? "0")%string
            then parseArguments rest' (setUseBSpline config false)
            else if (interpolationType =? "bspline")%string
                    || (interpolationType =? "1")%string
            then parseArguments rest' (setUseBSpline config true)
            else (false, config,
                  [("Invalid interpolation type: "
                    ++ interpolationType)%string]%list)
        | [] => (false, config, [])
        end
      else if (arg =? "-kf")%string && hasNext rest then
        match rest with
        | value :: rest' => parseArguments rest' (setKeyframeString config value)
        | [] => (false, config, [])
        end
      else if (arg =? "-m")%string && hasNext rest then
        match rest with
        | value :: rest' => parseArguments rest' (setObjFilename config value)
        | [] => (false, config, [])
        end
      else if (arg =? "-h")%string || (arg =? "--help")%string then
        (true, setShowHelp config, [])
      else (false, config, [("Unknown argument: " ++ arg)%string]%list)
  end.

(** [parseCommandLine(argc, argv, config)]: the loop starts at [argv[1]]. *)
Definition parseCommandLine (argv : list string) (config : ProgramConfig)
  : bool * ProgramConfig * list string :=
  parseArguments (tl argv) config.

(** What an option and its value do to the configuration, when the value
    is one the option accepts. *)
Definition optionEffect (flag value : string)
  : option (ProgramConfig -> ProgramConfig) :=
  if (flag =? "-ot")%string then
    if (value =? "quat")%string || (value =? "quaternion")%string
       || (value =? "0")%string
    then Some (fun config => setUseQuaternions config true)
    else if (value =? "euler")%string || (value =? "1")%string
    then Some (fun config => setUseQuaternions config false)
    else None
  else if (flag =? "-it")%string then
    if (value =? "crspline")%string || (value =? "catmullrom")%string
       || (value =? "0")%string
    then Some (fun config => setUseBSpline config false)
    else if (value =? "bspline")%string || (value =? "1")%string
    then Some (fun config => setUseBSpline config true)
    else None
  else if (flag =? "-kf")%string then
    Some (fun config => setKeyframeString config value)
  else if (flag =? "-m")%string then
    Some (fun config => setObjFilename config value)
  else None.

(** The options of a command line, applied in order; [None] when one of
    them is not accepted. *)
Fixpoint applyOptions (options : list (string * string))
  (config : ProgramConfig) : option ProgramConfig :=
  match options with
  | [] => Some config
  | (flag, value) :: rest =>
      match optionEffect flag value with
      | Some f => applyOptions rest (f config)
      | None => None
      end
  end.

(** The arguments that spell a list of options. *)
Definition spell (options : list (string * string)) : list string :=
  flat_map (fun o => [fst o; snd o]) options.

Section Callers.

Context {G : Glm}.

Variable stof : string -> result Qc.
Variable indeterminate : vec3.

Definition defaultFrames : list KeyFrame :=
  [KeyFrame_of_euler (mkVec3 (fl 0) (fl 0) (fl 0))
     (mkVec3 (fl 0) (fl 0) (fl 0)) (fl 0);
   KeyFrame_of_euler (mkVec3 (fl 3) (fl 2) (fl 0))
     (mkVec3 (fl 45) (fl 90) (fl 0)) (fl 2);
   KeyFrame_of_euler (mkVec3 (fl 0) (fl 4) (fl 3))
     (mkVec3 (fl 90) (fl 180) (fl 45)) (fl 4);
   KeyFrame_of_euler (mkVec3 (fl (-3)) (fl 2) (fl 0))
     (mkVec3 (fl 135) (fl 270) (fl 90)) (fl 6);
   KeyFrame_of_euler (mkVec3 (fl 0) (fl 0) (fl (-3)))
     (mkVec3 (fl 180) (fl 360) (fl 135)) (fl 8);
   KeyFrame_of_euler (mkVec3 (fl 0) (fl 0) (fl 0))
     (mkVec3 (fl 360) (fl 720) (fl 360)) (fl 10)].

(** [setupDefaultKeyFrames(controller)]; [None] is the null pointer. *)
Definition setupDefaultKeyFrames (controller : option Controller)
  : option Controller :=
  match controller with
  | None => None
  | Some c => Some (addMultipleKeyFrames c defaultFrames)
  end.

(** [setupMotionSystem()] of main.cpp: the controller it leaves in the
    global [motionController]. *)
Definition setupMotionSystem (config : ProgramConfig)
  : result (option Controller) :=
  let motionController := Some newController in
  if keyframesProvided config then
    out <- parseKeyFramesFromString stof indeterminate (keyframeString config)
             motionController ;;
    if negb (returned out)
    then Ok (setupDefaultKeyFrames (controllerAfter out))
    else Ok (controllerAfter out)
  else Ok (setupDefaultKeyFrames motionController).

(** The update of the animation time in [mainLoop]:
    [currentTime += deltaTime * 0.5f;
     if (motionController && currentTime > motionController->getTotalTime())
       currentTime = 0.0f;] *)
Definition advanceTime (motionController : option Controller)
  (currentTime deltaTime : Qc) : Qc :=
  let currentTime' := currentTime + deltaTime * fl 0.5 in
  match motionController with
  | Some c => if getTotalTime c <? currentTime' then fl 0 else currentTime'
  | None => currentTime'
  end.

End Callers.

(** ** GLM on rationals

    An instance of [Glm] to run the controller on concrete inputs.  Matrices
    are column-major, as in GLM.  [translate], the matrix product and
    [mat4_cast] are GLM's formulas; they are exact on rationals.  An angle in
    radians is represented by its ratio to pi, which makes [radians] exact;
    cosine and sine are replaced by the piecewise-linear functions that agree
    with them at the multiples of a quarter turn, and [slerp] by GLM's linear
    branch (the one GLM takes when the two rotations nearly coincide), after
    GLM's choice of the shorter arc. *)

Module Rational.

Record vec4 : Type := mkVec4 { x4 : Qc; y4 : Qc; z4 : Qc; w4 : Qc }.

Record matrix : Type := mkMatrix {
  col0 : vec4; col1 : vec4; col2 : vec4; col3 : vec4
}.

Record quaternion : Type := mkQuat { qw : Qc; qx : Qc; qy : Qc; qz : Qc }.

Definition scale4 (v : vec4) (s : Qc) : vec4 :=
  mkVec4 (x4 v * s) (y4 v * s) (z4 v * s) (w4 v * s).

Definition add4 (a b : vec4) : vec4 :=
  mkVec4 (x4 a + x4 b) (y4 a + y4 b) (z4 a + z4 b) (w4 a + w4 b).

Definition identity : matrix :=
  mkMatrix (mkVec4 1 0 0 0) (mkVec4 0 1 0 0) (mkVec4 0 0 1 0) (mkVec4 0 0 0 1).

(** [m * v] for a column [v] *)
Definition apply (m : matrix) (v : vec4) : vec4 :=
  add4 (add4 (add4 (scale4 (col0 m) (x4 v)) (scale4 (col1 m) (y4 v)))
          (scale4 (col2 m) (z4 v)))
    (scale4 (col3 m) (w4 v)).

Definition mul (a b : matrix) : matrix :=
  mkMatrix (apply a (col0 b)) (apply a (col1 b)) (apply a (col2 b))
    (apply a (col3 b)).

Definition translate (m : matrix) (v : vec3) : matrix :=
  mkMatrix (col0 m) (col1 m) (col2 m)
    (add4 (add4 (add4 (scale4 (col0 m) (vx v)) (scale4 (col1 m) (vy v)))
             (scale4 (col2 m) (vz v)))
       (col3 m)).

(** Degrees to radians, the result counted in units of pi. *)
Definition radians (deg : Qc) : Qc := deg / fl 180.

(** The angle, in units of pi, brought back to the interval from 0 to 2. *)
Definition reduce (r : Qc) : Qc :=
  r - fl 2 * fl (inject_Z (Qfloor (r / fl 2))).

Definition cosine (r : Qc) : Qc :=
  let u := reduce r in
  if u <=? 1 then 1 - fl 2 * u else fl 2 * u - fl 3.

Definition sine (r : Qc) : Qc := cosine (r - fl 0.5).

(** The axis is taken as given: the controller passes unit vectors only. *)
Definition rotate (m : matrix) (angle : Qc) (v : vec3) : matrix :=
  let c := cosine angle in
  let s := sine angle in
  let temp := ((1 - c) *: v)%vec in
  let r00 := c + vx temp * vx v in
  let r01 := vx temp * vy v + s * vz v in
  let r02 := vx temp * vz v - s * vy v in
  let r10 := vy temp * vx v - s * vz v in
  let r11 := c + vy temp * vy v in
  let r12 := vy temp * vz v + s * vx v in
  let r20 := vz temp * vx v + s * vy v in
  let r21 := vz temp * vy v - s * vx v in
  let r22 := c + vz temp * vz v in
  mkMatrix
    (add4 (add4 (scale4 (col0 m) r00) (scale4 (col1 m) r01))
       (scale4 (col2 m) r02))
    (add4 (add4 (scale4 (col0 m) r10) (scale4 (col1 m) r11))
       (scale4 (col2 m) r12))
    (add4 (add4 (scale4 (col0 m) r20) (scale4 (col1 m) r21))
       (scale4 (col2 m) r22))
    (col3 m).

Definition mat4_cast (q : quaternion) : matrix :=
  let qxx := qx q * qx q in
  let qyy := qy q * qy q in
  let qzz := qz q * qz q in
  let qxz := qx q * qz q in
  let qxy := qx q * qy q in
  let qyz := qy q * qz q in
  let qwx := qw q * qx q in
  let qwy := qw q * qy q in
  let qwz := qw q * qz q in
  mkMatrix
    (mkVec4 (1 - fl 2 * (qyy + qzz)) (fl 2 * (qxy + qwz)) (fl 2 * (qxz - qwy)) 0)
    (mkVec4 (fl 2 * (qxy - qwz)) (1 - fl 2 * (qxx + qzz)) (fl 2 * (qyz + qwx)) 0)
    (mkVec4 (fl 2 * (qxz + qwy)) (fl 2 * (qyz - qwx)) (1 - fl 2 * (qxx + qyy)) 0)
    (mkVec4 0 0 0 1).

Definition dot (a b : quaternion) : Qc :=
  qw a * qw b + qx a * qx b + qy a * qy b + qz a * qz b.

(** [glm::mix(x, y, a)] *)
Definition mix (x y a : Qc) : Qc := x * (1 - a) + y * a.

Definition slerp (x y : quaternion) (a : Qc) : quaternion :=
  let z := if dot x y <? 0
           then mkQuat (- qw y) (- qx y) (- qy y) (- qz y) else y in
  mkQuat (mix (qw x) (qw z) a) (mix (qx x) (qx z) a)
    (mix (qy x) (qy z) a) (mix (qz x) (qz z) a).

Definition quat_of_euler (e : vec3) : quaternion :=
  let cx := cosine (vx e * fl 0.5) in
  let cy := cosine (vy e * fl 0.5) in
  let cz := cosine (vz e * fl 0.5) in
  let sx := sine (vx e * fl 0.5) in
  let sy := sine (vy e * fl 0.5) in
  let sz := sine (vz e * fl 0.5) in
  mkQuat (cx * cy * cz + sx * sy * sz)
    (sx * cy * cz - cx * sy * sz)
    (cx * sy * cz + sx * cy * sz)
    (cx * cy * sz - sx * sy * cz).

#[export] Instance glm : Glm :=
  Build_Glm matrix quaternion identity translate rotate radians mat4_cast mul
    slerp quat_of_euler.

(** Equality of matrices, decided. *)
Definition vec4_eqb (a b : vec4) : bool :=
  Qc_eq_bool (x4 a) (x4 b) && Qc_eq_bool (y4 a) (y4 b)
  && Qc_eq_bool (z4 a) (z4 b) && Qc_eq_bool (w4 a) (w4 b).


Definition matrix_eqb (a b : matrix) : bool :=
  vec4_eqb (col0 a) (col0 b) && vec4_eqb (col1 a) (col1 b)
  && vec4_eqb (col2 a) (col2 b) && vec4_eqb (col3 a) (col3 b).

End Rational.

(** ** Concrete stores, to run the controller on *)

Module Examples.

Import Rational.

Definition vec (a b c : Q) : vec3 := mkVec3 (fl a) (fl b) (fl c).

(** The quaternion of the null rotation. *)
Definition unitQuat : quaternion := mkQuat 1 0 0 0.

Definition kfA : KeyFrame := mkKeyFrame (vec 0 0 0) (vec 0 0 0) unitQuat (fl 0).
Definition kfB : KeyFrame := mkKeyFrame (vec 6 0 0) (vec 0 0 0) unitQuat (fl 2).
Definition kfC : KeyFrame := mkKeyFrame (vec 6 6 0) (vec 0 0 0) unitQuat (fl 4).


Definition oneKeyFrame : Controller := addKeyFrame newController kfA.
Definition twoKeyFrames : Controller := addKeyFrame oneKeyFrame kfB.
Definition threeKeyFrames : Controller := addKeyFrame twoKeyFrames kfC.


(** The segment between [kfA] and [kfB] in [threeKeyFrames], and a segment
    whose four control points coincide. *)
Definition segAB : SegmentData :=
  {| p0 := vec 0 0 0; p1 := vec 0 0 0; p2 := vec 6 0 0; p3 := vec 6 6 0;
     e0 := vec 0 0 0; e1 := vec 0 0 0; e2 := vec 0 0 0; e3 := vec 0 0 0;
     q1 := unitQuat; q2 := unitQuat;
     startTime := fl 0; endTime := fl 2; duration := fl 2 |}.

Definition segStill : SegmentData :=
  {| p0 := vec 1 2 3; p1 := vec 1 2 3; p2 := vec 1 2 3; p3 := vec 1 2 3;
     e0 := vec 0 0 0; e1 := vec 0 0 0; e2 := vec 0 0 0; e3 := vec 0 0 0;
     q1 := unitQuat; q2 := unitQuat;
     startTime := fl 0; endTime := fl 2; duration := fl 2 |}.

(** The controller after one query. *)
Definition afterQuery (c : Controller) (t : Qc) (useQuat useBSplines : bool)
  : Controller :=
  match getTransformationMatrix c t useQuat useBSplines with
  | Ok r => snd r
  | Err _ => c
  end.



(** Both queries return, and they return different matrices. *)
Definition returnDifferent (r1 r2 : result (mat4 * Controller)) : Prop :=
  exists (m1 m2 : matrix) (c1 c2 : Controller),
    r1 = Ok (m1, c1) /\ r2 = Ok (m2, c2) /\ m1 <> m2.

Definition returnDifferentb (r1 r2 : result (mat4 * Controller)) : bool :=
  match r1, r2 with
  | Ok r1, Ok r2 => negb (matrix_eqb (fst r1) (fst r2))
  | _, _ => false
  end.



End Examples.

(** * Properties *)

(** ** Scalars: from [Qc] to [Q], where [lra] and [ring] decide *)

Lemma Qc_eq_Qeq (a b : Qc) : a = b -> (a == b)%Q.
Proof. intros ->; reflexivity. Qed.

Ltac qc2q :=
  unfold fl, Qcle, Qclt, Qcdiv, Qcminus, Qcplus, Qcmult, Qcopp, Qcinv in *;
  cbn [this Q2Qc] in *;
  repeat (first
    [ rewrite Qred_correct
    | match goal with H : _ |- _ => rewrite Qred_correct in H end ]);
  repeat match goal with
         | H : @eq Qc _ _ |- _ => apply Qc_eq_Qeq in H; cbn [this Q2Qc] in H
         end;
  repeat (first
    [ rewrite Qred_correct
    | match goal with H : _ |- _ => rewrite Qred_correct in H end ]);
  change (inject_Z 0) with 0%Q in *;
  change (inject_Z 1) with 1%Q in *.

Ltac qc_lra := qc2q; lra.
Ltac qc_ring := apply Qc_is_canon; qc2q; ring.

Lemma Qcltb_lt (a b : Qc) : (a <? b) = true <-> a < b.
Proof.
  unfold Qcltb, Qclt. rewrite negb_true_iff.
  split; intros H.
  - apply Qnot_le_lt. intros Hle. apply Qle_bool_iff in Hle. congruence.
  - destruct (Qle_bool b a) eqn:E; [|reflexivity].
    apply Qle_bool_iff in E. exfalso. revert E. apply Qlt_not_le, H.
Qed.

Lemma Qcltb_ge (a b : Qc) : (a <? b) = false <-> b <= a.
Proof.
  unfold Qcltb, Qcle. rewrite negb_false_iff. apply Qle_bool_iff.
Qed.

Lemma Qcleb_le (a b : Qc) : (a <=? b) = true <-> a <= b.
Proof. unfold Qcleb, Qcle. apply Qle_bool_iff. Qed.

Lemma Qcleb_gt (a b : Qc) : (a <=? b) = false <-> b < a.
Proof.
  rewrite <- Qcltb_lt. unfold Qcltb, Qcleb.
  destruct (Qle_bool a b); simpl; intuition congruence.
Qed.

(** Turns every boolean comparison among the hypotheses into its order. *)
Ltac order_hyps :=
  repeat match goal with
         | H : (_ <? _) = true |- _ => apply Qcltb_lt in H
         | H : (_ <? _) = false |- _ => apply Qcltb_ge in H
         | H : (_ <=? _) = true |- _ => apply Qcleb_le in H
         | H : (_ <=? _) = false |- _ => apply Qcleb_gt in H
         end.

Lemma wrap_int_small (z : Z) :
  (- 2 ^ 31 <= z < 2 ^ 31)%Z -> wrap_int z = z.
Proof.
  intros H. unfold wrap_int. rewrite Z.mod_small; lia.
Qed.

Lemma fabs_le (x r : Qc) : fabs x <= r <-> - r <= x /\ x <= r.
Proof.
  unfold fabs. destruct (x <? 0) eqn:E; order_hyps; split.
  - intros H. split; qc_lra.
  - intros [H1 H2]. qc_lra.
  - intros H. split; qc_lra.
  - intros [H1 H2]. qc_lra.
Qed.

Lemma fabs_lt (x r : Qc) : fabs x < r <-> - r < x /\ x < r.
Proof.
  unfold fabs. destruct (x <? 0) eqn:E; order_hyps; split.
  - intros H. split; qc_lra.
  - intros [H1 H2]. qc_lra.
  - intros H. split; qc_lra.
  - intros [H1 H2]. qc_lra.
Qed.

(** ** Vectors *)

Lemma vec3_get_set_same (v : vec3) (i : axis) (x : Qc) :
  vec3_get (vec3_set v i x) i = x.
Proof. destruct i; reflexivity. Qed.

Lemma vec3_get_set_other (v : vec3) (i j : axis) (x : Qc) :
  i <> j -> vec3_get (vec3_set v i x) j = vec3_get v j.
Proof. destruct i, j; intros H; try reflexivity; congruence. Qed.

Lemma vec3_set_set (v : vec3) (i : axis) (x y : Qc) :
  vec3_set (vec3_set v i x) i y = vec3_set v i y.
Proof. destruct i; reflexivity. Qed.

Lemma vec3_set_get (v : vec3) (i : axis) : vec3_set v i (vec3_get v i) = v.
Proof. destruct v, i; reflexivity. Qed.

Lemma vec3_ext (a b : vec3) :
  vx a = vx b -> vy a = vy b -> vz a = vz b -> a = b.
Proof. destruct a, b; simpl; intros -> -> ->; reflexivity. Qed.

(** ** normalizeAngles: the two loops of one axis *)

Lemma while_loop_step {St : Type} (fuel : nat) (cond : St -> bool)
  (body : St -> St) (s : St) :
  while_loop (S fuel) cond body s
  = if cond s then while_loop fuel cond body (body s) else Ok s.
Proof. reflexivity. Qed.

Section NormalizeAxis.

Variable reference : vec3.
Variable i : axis.

Let ref := vec3_get reference i.
Let down_cond := fun r : vec3 => fl 180 <? vec3_get r i - ref.
Let down_body := fun r : vec3 => vec3_set r i (vec3_get r i - fl 360).
Let up_cond := fun r : vec3 => vec3_get r i - ref <? fl (-180).
Let up_body := fun r : vec3 => vec3_set r i (vec3_get r i + fl 360).

Lemma loop_down (n : nat) : forall r : vec3,
  vec3_get r i - ref <= fl 180 + fl 360 * fl (inject_Z (Z.of_nat n)) ->
  exists k : Z,
    (0 <= k)%Z
    /\ while_loop (S n) down_cond down_body r
       = Ok (vec3_set r i (vec3_get r i - fl 360 * fl (inject_Z k)))
    /\ vec3_get r i - fl 360 * fl (inject_Z k) - ref <= fl 180
    /\ (k = 0%Z \/ fl (-180) < vec3_get r i - fl 360 * fl (inject_Z k) - ref).
Proof.
  assert (Hstop : forall (m : nat) (r : vec3), down_cond r = false ->
            exists k : Z,
              (0 <= k)%Z
              /\ while_loop (S m) down_cond down_body r
                 = Ok (vec3_set r i (vec3_get r i - fl 360 * fl (inject_Z k)))
              /\ vec3_get r i - fl 360 * fl (inject_Z k) - ref <= fl 180
              /\ (k = 0%Z
                  \/ fl (-180)
                     < vec3_get r i - fl 360 * fl (inject_Z k) - ref)).
  { intros m r E. exists 0%Z. cbn [while_loop]. rewrite E.
    unfold down_cond in E. order_hyps.
    split; [lia|]. split; [|split; [qc_lra | now left]].
    f_equal. rewrite <- (vec3_set_get r i) at 1. f_equal. qc_ring. }
  induction n as [|n IH]; intros r H;
    destruct (down_cond r) eqn:E; try (apply Hstop; assumption).
  - exfalso. unfold down_cond in E. order_hyps. cbn [Z.of_nat] in H. qc_lra.
  - rewrite while_loop_step, E. unfold down_cond in E. order_hyps.
    destruct (IH (down_body r)) as (k & Hk & Hrun & Hle & Hgt).
    { unfold down_body. rewrite vec3_get_set_same.
      rewrite Nat2Z.inj_succ in H. unfold Z.succ in H.
      rewrite inject_Z_plus in H. qc_lra. }
    exists (k + 1)%Z. unfold down_body in Hrun, Hle, Hgt.
    rewrite vec3_get_set_same in Hrun, Hle, Hgt. rewrite vec3_set_set in Hrun.
    split; [lia|]. split; [|split].
    + unfold down_body. rewrite Hrun. do 2 f_equal.
      rewrite inject_Z_plus. qc_ring.
    + rewrite inject_Z_plus. qc_lra.
    + right. rewrite inject_Z_plus. destruct Hgt as [-> | Hgt]; qc_lra.
Qed.

Lemma loop_up (n : nat) : forall r : vec3,
  - (vec3_get r i - ref) <= fl 180 + fl 360 * fl (inject_Z (Z.of_nat n)) ->
  exists k : Z,
    (0 <= k)%Z
    /\ while_loop (S n) up_cond up_body r
       = Ok (vec3_set r i (vec3_get r i + fl 360 * fl (inject_Z k)))
    /\ fl (-180) <= vec3_get r i + fl 360 * fl (inject_Z k) - ref
    /\ (k = 0%Z \/ vec3_get r i + fl 360 * fl (inject_Z k) - ref < fl 180)
    /\ (fl (-180) <= vec3_get r i - ref -> k = 0%Z).
Proof.
  assert (Hstop : forall (m : nat) (r : vec3), up_cond r = false ->
            exists k : Z,
              (0 <= k)%Z
              /\ while_loop (S m) up_cond up_body r
                 = Ok (vec3_set r i (vec3_get r i + fl 360 * fl (inject_Z k)))
              /\ fl (-180) <= vec3_get r i + fl 360 * fl (inject_Z k) - ref
              /\ (k = 0%Z
                  \/ vec3_get r i + fl 360 * fl (inject_Z k) - ref < fl 180)
              /\ (fl (-180) <= vec3_get r i - ref -> k = 0%Z)).
  { intros m r E. exists 0%Z. cbn [while_loop]. rewrite E.
    unfold up_cond in E. order_hyps.
    split; [lia|]. split; [|split; [qc_lra | split; [now left | reflexivity]]].
    f_equal. rewrite <- (vec3_set_get r i) at 1. f_equal. qc_ring. }
  induction n as [|n IH]; intros r H;
    destruct (up_cond r) eqn:E; try (apply Hstop; assumption).
  - exfalso. unfold up_cond in E. order_hyps. cbn [Z.of_nat] in H. qc_lra.
  - rewrite while_loop_step, E. unfold up_cond in E. order_hyps.
    destruct (IH (up_body r)) as (k & Hk & Hrun & Hle & Hgt & _).
    { unfold up_body. rewrite vec3_get_set_same.
      rewrite Nat2Z.inj_succ in H. unfold Z.succ in H.
      rewrite inject_Z_plus in H. qc_lra. }
    exists (k + 1)%Z. unfold up_body in Hrun, Hle, Hgt.
    rewrite vec3_get_set_same in Hrun, Hle, Hgt. rewrite vec3_set_set in Hrun.
    split; [lia|]. split; [|split; [|split]].
    + unfold up_body. rewrite Hrun. do 2 f_equal.
      rewrite inject_Z_plus. qc_ring.
    + rewrite inject_Z_plus. qc_lra.
    + right. rewrite inject_Z_plus. destruct Hgt as [-> | Hgt]; qc_lra.
    + intros Hge. exfalso. qc_lra.
Qed.

End NormalizeAxis.

(** The fuel [turns d] covers a difference [d] in either direction. *)
Lemma turns_enough (d : Qc) :
  exists n : nat,
    turns d = S n
    /\ d <= fl 360 * fl (inject_Z (Z.of_nat n))
    /\ - d <= fl 360 * fl (inject_Z (Z.of_nat n)).
Proof.
  exists (Z.to_nat (Qceiling (Qabs d / 360))). split; [reflexivity|].
  set (c := Qceiling (Qabs d / 360)).
  assert (Hc : (Qabs d / 360 <= inject_Z (Z.of_nat (Z.to_nat c)))%Q).
  { apply Qle_trans with (inject_Z c); [apply Qle_ceiling|].
    rewrite <- Zle_Qle. lia. }
  assert (H1 : (d <= Qabs d)%Q) by apply Qle_Qabs.
  assert (H2 : (- d <= Qabs d)%Q).
  { rewrite <- Qabs_opp. apply Qle_Qabs. }
  assert (He : (Qabs d == 360 * (Qabs d / 360))%Q) by field.
  clearbody c. set (X := (Qabs d / 360)%Q) in *. clearbody X.
  split; qc_lra.
Qed.

Lemma normalizeAxis_spec (res reference : vec3) (i : axis) :
  exists k : Z,
    normalizeAxis res reference i
    = Ok (vec3_set res i (vec3_get res i + fl 360 * fl (inject_Z k)))
    /\ fl (-180) <= vec3_get res i + fl 360 * fl (inject_Z k)
                    - vec3_get reference i
    /\ vec3_get res i + fl 360 * fl (inject_Z k) - vec3_get reference i
       <= fl 180.
Proof.
  unfold normalizeAxis.
  destruct (turns_enough (vec3_get res i - vec3_get reference i))
    as (n1 & -> & Hn1 & _).
  destruct (loop_down reference i n1 res) as (k1 & Hk1 & -> & Hle1 & Hgt1).
  { qc_lra. }
  cbn [bind]. rewrite vec3_get_set_same.
  set (x1 := vec3_get res i - fl 360 * fl (inject_Z k1)) in *.
  destruct (turns_enough (x1 - vec3_get reference i)) as (n2 & -> & _ & Hn2).
  destruct (loop_up reference i n2 (vec3_set res i x1))
    as (k2 & Hk2 & Hrun & Hge2 & Hlt2 & Hzero).
  { rewrite vec3_get_set_same. qc_lra. }
  rewrite vec3_get_set_same in Hrun, Hge2, Hlt2, Hzero.
  rewrite vec3_set_set in Hrun.
  exists (k2 - k1)%Z. rewrite Hrun. unfold x1 in *. clear x1.
  unfold Zminus. rewrite inject_Z_plus, inject_Z_opp.
  split; [do 2 f_equal; qc_ring|]. split; [qc_lra|].
  destruct Hlt2 as [-> | Hlt2]; qc_lra.
Qed.

Lemma normalizeAngles_spec (angles reference : vec3) :
  exists res : vec3,
    normalizeAngles angles reference = Ok res
    /\ forall i : axis,
         exists k : Z,
           vec3_get res i = vec3_get angles i + fl 360 * fl (inject_Z k)
           /\ fl (-180) <= vec3_get res i - vec3_get reference i
           /\ vec3_get res i - vec3_get reference i <= fl 180.
Proof.
  unfold normalizeAngles.
  destruct (normalizeAxis_spec angles reference AxisX) as (kx & -> & Hx1 & Hx2).
  cbn [bind].
  destruct (normalizeAxis_spec
              (vec3_set angles AxisX
                 (vec3_get angles AxisX + fl 360 * fl (inject_Z kx)))
              reference AxisY) as (ky & -> & Hy1 & Hy2).
  cbn [bind].
  match goal with |- context [normalizeAxis ?r reference AxisZ] =>
    destruct (normalizeAxis_spec r reference AxisZ) as (kz & -> & Hz1 & Hz2)
  end.
  eexists. split; [reflexivity|].
  intros [| |]; [exists kx | exists ky | exists kz];
    cbn [vec3_get vec3_set vx vy vz] in *; repeat split; assumption.
Qed.

(** An integer multiple of 360 that stays within 180 of a given offset. *)
Lemma turn_unique (a : Qc) (k k0 : Z) :
  fl (-180) < a + fl 360 * fl (inject_Z k0) ->
  a + fl 360 * fl (inject_Z k0) < fl 180 ->
  fl (-180) <= a + fl 360 * fl (inject_Z k) ->
  a + fl 360 * fl (inject_Z k) <= fl 180 ->
  k = k0.
Proof.
  intros H1 H2 H3 H4.
  destruct (Z_lt_le_dec k k0) as [Hlt | Hge].
  - exfalso. assert (Hk : (inject_Z k + 1 <= inject_Z k0)%Q).
    { change 1%Q with (inject_Z 1). rewrite <- inject_Z_plus, <- Zle_Qle. lia. }
    qc_lra.
  - destruct (Z_lt_le_dec k0 k) as [Hlt | Hle]; [|lia].
    exfalso. assert (Hk : (inject_Z k0 + 1 <= inject_Z k)%Q).
    { change 1%Q with (inject_Z 1). rewrite <- inject_Z_plus, <- Zle_Qle. lia. }
    qc_lra.
Qed.


(** The two examples of C4, run. *)
Example normalizeAngles_370 :
  normalizeAngles (mkVec3 (fl 370) (fl (-190)) 0) (mkVec3 0 0 0)
  = Ok (mkVec3 (fl 10) (fl 170) 0).
Proof.
  destruct (normalizeAngles_spec (mkVec3 (fl 370) (fl (-190)) 0) (mkVec3 0 0 0))
    as (res & Hres & _).
  rewrite Hres. f_equal. revert Hres. vm_compute.
  intros H. injection H as <-. apply vec3_ext; apply Qc_is_canon; reflexivity.
Qed.

(** ** Lists and the result monad *)

Lemma at_index_nth {A : Type} (l : list A) (n : nat) (a : A) :
  nth_error l n = Some a -> at_index l (Z.of_nat n) = Ok a.
Proof.
  intros H. unfold at_index.
  destruct (Z.ltb_spec (Z.of_nat n) 0); [lia|].
  rewrite Nat2Z.id, H. reflexivity.
Qed.

Lemma at_index_Ok {A : Type} (l : list A) (z : Z) (a : A) :
  at_index l z = Ok a -> (0 <= z)%Z /\ nth_error l (Z.to_nat z) = Some a.
Proof.
  unfold at_index. destruct (Z.ltb_spec z 0); [discriminate|].
  destruct (nth_error l (Z.to_nat z)) eqn:E; [|discriminate].
  intros [= ->]. split; [assumption | reflexivity].
Qed.

Lemma nth_error_in_range {A : Type} (l : list A) (n : nat) :
  (n < List.length l)%nat -> exists a : A, nth_error l n = Some a.
Proof.
  intros H. destruct (nth_error l n) eqn:E; [eauto|].
  apply nth_error_None in E. lia.
Qed.

Lemma mapM_Ok {A B : Type} (f : A -> result B) (l : list A) (bs : list B) :
  mapM f l = Ok bs ->
  List.length bs = List.length l
  /\ forall (i : nat) (a : A),
       nth_error l i = Some a ->
       exists b : B, nth_error bs i = Some b /\ f a = Ok b.
Proof.
  revert bs. induction l as [|a l IH]; intros bs H; cbn [mapM] in H.
  - injection H as <-. split; [reflexivity|]. intros [|i] a H; discriminate.
  - destruct (f a) as [b|e] eqn:Ea; [|discriminate]. cbn [bind] in H.
    destruct (mapM f l) as [bs'|e] eqn:El; [|discriminate]. cbn [bind] in H.
    injection H as <-. destruct (IH bs' eq_refl) as [Hlen Hnth].
    split; [cbn; congruence|].
    intros [|i] a' Ha'; cbn [nth_error] in *.
    + injection Ha' as <-. eauto.
    + apply Hnth, Ha'.
Qed.

Lemma mapM_total {A B : Type} (f : A -> result B) (l : list A) :
  (forall a : A, In a l -> exists b : B, f a = Ok b) ->
  exists bs : list B, mapM f l = Ok bs.
Proof.
  induction l as [|a l IH]; intros H; cbn [mapM].
  - eauto.
  - destruct (H a (or_introl eq_refl)) as [b ->]. cbn [bind].
    destruct IH as [bs ->]; [intros a' Ha'; apply H; now right|].
    cbn [bind]. eauto.
Qed.

(** ** precomputeSegments *)

Section Segments.

Context {G : Glm}.

Lemma makeSegment_total (kfs : list KeyFrame) (i : nat) :
  (i + 1 < List.length kfs)%nat ->
  (Z.of_nat (List.length kfs) <= 2 ^ 30)%Z ->
  exists seg : SegmentData, makeSegment kfs i = Ok seg.
Proof.
  intros Hi Hsmall. unfold makeSegment.
  rewrite (wrap_int_small (Z.of_nat i)) by lia.
  replace (Z.max 0 (Z.of_nat i - 1)) with (Z.of_nat (i - 1)) by lia.
  destruct (nth_error_in_range kfs (i - 1)) as [k0 H0]; [lia|].
  destruct (nth_error_in_range kfs i) as [k1 H1]; [lia|].
  destruct (nth_error_in_range kfs (i + 1)) as [k2 H2]; [lia|].
  destruct (nth_error_in_range kfs (Nat.min (i + 2) (List.length kfs - 1)))
    as [k3 H3]; [lia|].
  rewrite (at_index_nth _ _ _ H0), (at_index_nth _ _ _ H1),
    (at_index_nth _ _ _ H2), (at_index_nth _ _ _ H3).
  cbn [bind].
  destruct (normalizeAngles_spec (eulerAngles k0) (eulerAngles k1))
    as (e0' & -> & _).
  destruct (normalizeAngles_spec (eulerAngles k2) (eulerAngles k1))
    as (e2' & -> & _).
  cbn [bind].
  destruct (normalizeAngles_spec (eulerAngles k3) e2') as (e3' & -> & _).
  cbn [bind]. eauto.
Qed.

Lemma makeSegment_segmentOf (kfs : list KeyFrame) (i : nat)
  (seg : SegmentData) :
  (Z.of_nat (List.length kfs) <= 2 ^ 30)%Z ->
  (i + 1 < List.length kfs)%nat ->
  makeSegment kfs i = Ok seg -> segmentOf kfs i seg.
Proof.
  intros Hsmall Hi. unfold makeSegment.
  rewrite (wrap_int_small (Z.of_nat i)) by lia.
  replace (Z.max 0 (Z.of_nat i - 1)) with (Z.of_nat (i - 1)) by lia.
  destruct (at_index kfs (Z.of_nat (i - 1))) as [k0|] eqn:H0; [|discriminate].
  destruct (at_index kfs (Z.of_nat i)) as [k1|] eqn:H1; [|discriminate].
  destruct (at_index kfs (Z.of_nat (i + 1))) as [k2|] eqn:H2; [|discriminate].
  destruct (at_index kfs (Z.of_nat (Nat.min (i + 2) (List.length kfs - 1))))
    as [k3|] eqn:H3; [|discriminate].
  cbn [bind].
  destruct (normalizeAngles (eulerAngles k0) (eulerAngles k1))
    as [e0'|] eqn:E0; [|discriminate].
  destruct (normalizeAngles (eulerAngles k2) (eulerAngles k1))
    as [e2'|] eqn:E2; [|discriminate].
  cbn [bind].
  destruct (normalizeAngles (eulerAngles k3) e2') as [e3'|] eqn:E3;
    [|discriminate].
  cbn [bind]. intros [= <-].
  apply at_index_Ok in H0, H1, H2, H3. rewrite Nat2Z.id in H0, H1, H2, H3.
  exists k0, k1, k2, k3. cbn. tauto.
Qed.

Lemma buildSegments_total (kfs : list KeyFrame) :
  (Z.of_nat (List.length kfs) <= 2 ^ 30)%Z ->
  exists segs : list SegmentData, buildSegments kfs = Ok segs.
Proof.
  intros Hsmall. apply mapM_total. intros i Hi. apply in_seq in Hi.
  apply makeSegment_total; [lia | assumption].
Qed.

Lemma buildSegments_Ok (kfs : list KeyFrame) (segs : list SegmentData) :
  (Z.of_nat (List.length kfs) <= 2 ^ 30)%Z ->
  buildSegments kfs = Ok segs ->
  List.length segs = (List.length kfs - 1)%nat
  /\ forall i : nat,
       (i + 1 < List.length kfs)%nat ->
       exists seg : SegmentData,
         nth_error segs i = Some seg /\ segmentOf kfs i seg.
Proof.
  intros Hsmall H. apply mapM_Ok in H. destruct H as [Hlen Hnth].
  rewrite length_seq in Hlen. split; [assumption|].
  intros i Hi. destruct (Hnth i i) as (seg & Hseg & Hmake).
  { rewrite nth_error_seq. destruct (Nat.ltb_spec i (List.length kfs - 1)).
    - reflexivity.
    - lia. }
  exists seg. split; [assumption|].
  apply makeSegment_segmentOf; assumption.
Qed.

Lemma buildSegments_contiguous (kfs : list KeyFrame)
  (segs : list SegmentData) :
  (Z.of_nat (List.length kfs) <= 2 ^ 30)%Z ->
  buildSegments kfs = Ok segs -> contiguous segs.
Proof.
  intros Hsmall H j a b Ha Hb.
  destruct (buildSegments_Ok kfs segs Hsmall H) as [Hlen Hnth].
  assert (Hj : (S j < List.length segs)%nat).
  { apply nth_error_Some. congruence. }
  destruct (Hnth j) as (a' & Ha' & Hsa); [lia|].
  destruct (Hnth (S j)) as (b' & Hb' & Hsb); [lia|].
  assert (a' = a) by congruence. assert (b' = b) by congruence. subst a' b'.
  destruct Hsa as (k0 & k1 & k2 & k3 & _ & _ & H2 & _ & _ & _ & _ & _ & _
                   & _ & _ & _ & _ & _ & _ & Hend & _).
  destruct Hsb as (k0' & k1' & k2' & k3' & _ & H1' & _ & _ & _ & _ & _ & _ & _
                   & _ & _ & _ & _ & _ & Hstart & _).
  replace (j + 1)%nat with (S j) in H2 by lia.
  congruence.
Qed.

End Segments.

(** ** findSegment *)

Section FindSegment.

Context {G : Glm}.

Variable segs : list SegmentData.
Variable t : Qc.

Let m : Z := Z.of_nat (List.length segs).

Hypothesis segs_small : (m <= 2 ^ 30)%Z.
Hypothesis segs_nonempty : (1 <= m)%Z.
Hypothesis segs_contiguous : contiguous segs.

Lemma at_index_in_range (i : Z) :
  (0 <= i < m)%Z ->
  exists s : SegmentData,
    nth_error segs (Z.to_nat i) = Some s /\ at_index segs i = Ok s.
Proof.
  intros Hi. destruct (nth_error_in_range segs (Z.to_nat i)) as [s Hs].
  { unfold m in Hi. lia. }
  exists s. split; [assumption|].
  rewrite <- (Z2Nat.id i) by lia. apply at_index_nth, Hs.
Qed.

Lemma inSegment_located (i : Z) :
  (0 <= i < m)%Z ->
  exists b : bool,
    inSegment segs i t = Ok b /\ (b = true -> located segs t i).
Proof.
  intros Hi. destruct (at_index_in_range i Hi) as (s & Hs & Hat).
  unfold inSegment. rewrite Hat. cbn [bind]. eexists. split; [reflexivity|].
  intros Hb. apply andb_true_iff in Hb. destruct Hb as [H1 H2]. order_hyps.
  exists s. split; [lia|]. split; [assumption|]. left. split; assumption.
Qed.

Lemma binarySearch_located (fuel : nat) : forall left right : Z,
  (0 <= left)%Z -> (right < m)%Z -> (left <= right + 1)%Z ->
  (right - left + 1 < Z.of_nat fuel)%Z ->
  (left = 0%Z
   \/ exists s : SegmentData,
        nth_error segs (Z.to_nat (left - 1)) = Some s /\ endTime s < t) ->
  (right = (m - 1)%Z
   \/ exists s : SegmentData,
        nth_error segs (Z.to_nat (right + 1)) = Some s /\ t < startTime s) ->
  exists i : Z, binarySearch fuel segs t left right = Ok i /\ located segs t i.
Proof.
  induction fuel as [|fuel IH]; intros left right Hl Hr Hlr Hfuel Hleft Hright;
    [lia|].
  cbn [binarySearch]. destruct (Z.leb_spec left right) as [Hle | Hgt].
  - rewrite (wrap_int_small (left + right)) by lia.
    set (mid := Z.quot (left + right) 2).
    assert (Hmid : (left <= mid <= right)%Z).
    { unfold mid. rewrite Z.quot_div_nonneg by lia.
      split; [apply Z.div_le_lower_bound | apply Z.div_le_upper_bound]; lia. }
    destruct (at_index_in_range mid) as (s & Hs & ->); [lia|]. cbn [bind].
    destruct (t <? startTime s) eqn:Ebefore; order_hyps.
    + rewrite (wrap_int_small (mid - 1)) by lia.
      apply IH; try lia; [assumption|].
      right. exists s. replace (mid - 1 + 1)%Z with mid by lia. tauto.
    + destruct (endTime s <? t) eqn:Eafter; order_hyps.
      * rewrite (wrap_int_small (mid + 1)) by lia.
        apply IH; try lia; [|assumption].
        right. exists s. replace (mid + 1 - 1)%Z with mid by lia. tauto.
      * exists mid. split; [reflexivity|].
        exists s. split; [lia|]. split; [assumption|]. left. tauto.
  - fold m. rewrite (wrap_int_small m) by lia.
    rewrite (wrap_int_small (m - 1)) by lia.
    eexists. split; [reflexivity|].
    assert (left = (right + 1)%Z) by lia. subst left.
    destruct (Z.eq_dec right (-1)) as [-> | Hne].
    + destruct Hright as [Hright | (s & Hs & Hlt)]; [lia|].
      replace (Z.max 0 (Z.min (-1) (m - 1))) with 0%Z by lia.
      exists s. split; [lia|]. split; [exact Hs|].
      right. left. tauto.
    + replace (Z.max 0 (Z.min right (m - 1))) with right by lia.
      destruct Hleft as [Hleft | (s & Hs & Hlt)]; [lia|].
      replace (right + 1 - 1)%Z with right in Hs by lia.
      exists s. split; [lia|]. split; [assumption|].
      destruct Hright as [-> | (s' & Hs' & Hlt')].
      * right. right. tauto.
      * exfalso. rewrite Z2Nat.inj_add in Hs' by lia.
        replace (Z.to_nat right + Z.to_nat 1)%nat with (S (Z.to_nat right))
          in Hs' by lia.
        rewrite <- (segs_contiguous _ _ _ Hs Hs') in Hlt'. qc_lra.
Qed.

End FindSegment.

Lemma findSegment_located {G : Glm} (c : Controller) (t : Qc) :
  (2 <= List.length (keyframes c))%nat ->
  (1 <= Z.of_nat (List.length (segments c)) <= 2 ^ 30)%Z ->
  contiguous (segments c) ->
  (0 <= lastSegment c <= Z.of_nat (List.length (segments c)))%Z ->
  exists i : Z, findSegment c t = Ok i /\ located (segments c) t i.
Proof.
  intros Hkfs Hm Hcont Hlast. unfold findSegment.
  destruct (Nat.ltb_spec (List.length (keyframes c)) 2) as [|_]; [lia|].
  set (segs := segments c) in *.
  set (m := Z.of_nat (List.length segs)) in *.
  rewrite (wrap_int_small m) by lia.
  rewrite (wrap_int_small (m - 1)) by lia.
  assert (Hsame : exists b : bool,
             (if (lastSegment c <? m)%Z then inSegment segs (lastSegment c) t
              else Ok false) = Ok b
             /\ (b = true -> located segs t (lastSegment c))).
  { destruct (Z.ltb_spec (lastSegment c) m).
    - apply inSegment_located. fold m. lia.
    - exists false. split; [reflexivity | discriminate]. }
  destruct Hsame as (same & -> & Hsame). cbn [bind].
  destruct same; [eauto|].
  rewrite (wrap_int_small (lastSegment c + 1)) by lia.
  assert (Hnext : exists b : bool,
             (if (lastSegment c + 1 <? m)%Z
              then inSegment segs (lastSegment c + 1) t
              else Ok false) = Ok b
             /\ (b = true -> located segs t (lastSegment c + 1))).
  { destruct (Z.ltb_spec (lastSegment c + 1) m).
    - apply inSegment_located. fold m. lia.
    - exists false. split; [reflexivity | discriminate]. }
  destruct Hnext as (next & -> & Hnext). cbn [bind].
  destruct next; [eauto|].
  rewrite (wrap_int_small (lastSegment c - 1)) by lia.
  assert (Hprev : exists b : bool,
             (if (0 <? lastSegment c)%Z
              then inSegment segs (lastSegment c - 1) t
              else Ok false) = Ok b
             /\ (b = true -> located segs t (lastSegment c - 1))).
  { destruct (Z.ltb_spec 0 (lastSegment c)).
    - apply inSegment_located. fold m. lia.
    - exists false. split; [reflexivity | discriminate]. }
  destruct Hprev as (prev & -> & Hprev). cbn [bind].
  destruct prev; [eauto|].
  apply binarySearch_located; fold m; try lia; try assumption; now left.
Qed.

(** ** getTransformationMatrix on a store of two keyframes or more *)

Section Evaluate.

Context {G : Glm}.

Lemma precomputeSegments_built (c : Controller) :
  wellFormed c -> smallStore c -> (2 <= List.length (keyframes c))%nat ->
  exists segs : list SegmentData,
    buildSegments (keyframes c) = Ok segs
    /\ precomputeSegments c = Ok (withSegments c segs).
Proof.
  intros [_ Hbuilt] Hsmall Hlen. unfold precomputeSegments.
  destruct (Nat.ltb_spec (List.length (keyframes c)) 2) as [|_]; [lia|].
  rewrite orb_false_r. destruct (segmentsCached c) eqn:Ecached.
  - exists (segments c). split; [auto|].
    destruct c; cbn in *; subst; reflexivity.
  - destruct (buildSegments_total (keyframes c) Hsmall) as [segs Hsegs].
    exists segs. rewrite Hsegs. split; reflexivity.
Qed.

(** A query that misses the cache on a store of two keyframes or more
    evaluates the segment that [findSegment] locates. *)
Lemma query_in_segment (c : Controller) (t : Qc) :
  wellFormed c -> smallStore c -> (2 <= List.length (keyframes c))%nat ->
  cacheHit c t = false ->
  exists (segs : list SegmentData) (i : Z) (seg : SegmentData),
    buildSegments (keyframes c) = Ok segs
    /\ located segs t i
    /\ nth_error segs (Z.to_nat i) = Some seg
    /\ (0 <= i < Z.of_nat (List.length segs))%Z
    /\ forall useQuat useBSplines : bool,
         getTransformationMatrix_traced c t useQuat useBSplines
         = Ok (InSegment, segmentTransform useQuat useBSplines seg t,
               remember (setLastSegment (withSegments c segs) i) t
                 (segmentTransform useQuat useBSplines seg t)).
Proof.
  intros Hwf Hsmall Hlen Hmiss.
  destruct (precomputeSegments_built c Hwf Hsmall Hlen) as (segs & Hsegs & Hpre).
  destruct (buildSegments_Ok _ _ Hsmall Hsegs) as [Hm _].
  pose proof (buildSegments_contiguous _ _ Hsmall Hsegs) as Hcont.
  destruct Hwf as [Hlast _]. specialize (Hlast Hsmall). unfold smallStore in *.
  destruct (findSegment_located (withSegments c segs) t) as (i & Hfind & Hloc);
    cbn [withSegments keyframes segments lastSegment]; try lia; try assumption.
  exists segs, i. destruct Hloc as (seg & Hi & Hseg & Hwhere).
  cbn [withSegments segments] in Hseg, Hwhere.
  assert (Hrange : (0 <= i < Z.of_nat (List.length segs))%Z).
  { split; [assumption|].
    assert (Z.to_nat i < List.length segs)%nat; [|lia].
    apply nth_error_Some. congruence. }
  exists seg. split; [assumption|]. split; [exists seg; tauto|].
  split; [assumption|]. split; [assumption|].
  intros useQuat useBSplines. unfold getTransformationMatrix_traced.
  destruct (keyframes c) as [|kf0 [|kf1 rest]] eqn:Ekfs;
    [cbn in Hlen; lia | cbn in Hlen; lia |].
  rewrite Hmiss, Hpre. cbn [bind]. rewrite Hfind. cbn [bind].
  cbn [setLastSegment segments withSegments].
  rewrite (wrap_int_small (Z.of_nat (List.length segs))) by lia.
  destruct (Z.leb_spec (Z.of_nat (List.length segs)) i); [lia|].
  rewrite <- (Z2Nat.id i) at 1 by lia. rewrite (at_index_nth _ _ _ Hseg).
  reflexivity.
Qed.

Lemma precomputeSegments_Ok (c c1 : Controller) :
  precomputeSegments c = Ok c1 ->
  keyframes c1 = keyframes c /\ lastSegment c1 = lastSegment c
  /\ ((segmentsCached c = true -> buildSegments (keyframes c) = Ok (segments c))
      -> segmentsCached c1 = true
      -> buildSegments (keyframes c1) = Ok (segments c1)).
Proof.
  unfold precomputeSegments.
  destruct (segmentsCached c || (List.length (keyframes c) <? 2)%nat) eqn:E.
  - intros [= <-]. tauto.
  - destruct (buildSegments (keyframes c)) as [segs|] eqn:Esegs;
      [|discriminate].
    cbn [bind]. intros [= <-]. cbn. tauto.
Qed.

Lemma wellFormed_new : wellFormed newController.
Proof.
  split; cbn; [lia | discriminate].
Qed.

Lemma addMultipleKeyFrames_keyframes (c : Controller) (kfs : list KeyFrame) :
  keyframes (addMultipleKeyFrames c kfs) = keyframes c ++ kfs.
Proof.
  cbn. generalize (keyframes c). induction kfs as [|kf kfs IH]; intros l.
  - cbn. now rewrite app_nil_r.
  - cbn [fold_left]. rewrite IH, <- app_assoc. reflexivity.
Qed.

Lemma wellFormed_mutate (c : Controller) (m : Mutation) :
  wellFormed c -> wellFormed (mutate c m).
Proof.
  intros [Hlast _]. destruct m as [kf | kfs |]; split;
    try (cbn; discriminate).
  - unfold smallStore in *. cbn [mutate addKeyFrame keyframes lastSegment].
    rewrite length_app. cbn [List.length]. lia.
  - unfold smallStore in *. cbn [mutate].
    rewrite addMultipleKeyFrames_keyframes.
    cbn [addMultipleKeyFrames lastSegment].
    rewrite length_app. lia.
  - cbn. lia.
Qed.

Lemma wellFormed_query (c c' : Controller) (t : Qc) (useQuat useBSplines : bool)
  (b : Branch) (m : mat4) :
  wellFormed c ->
  getTransformationMatrix_traced c t useQuat useBSplines = Ok (b, m, c') ->
  wellFormed c'.
Proof.
  intros Hwf. unfold getTransformationMatrix_traced.
  destruct (keyframes c) as [|kf0 rest] eqn:Ekfs; [intros [= <- <- <-]; exact Hwf|].
  destruct (cacheHit c t); [intros [= <- <- <-]; exact Hwf|].
  destruct rest as [|kf1 rest].
  { intros [= <- <- <-]. destruct Hwf as [Hlast Hbuilt].
    split; cbn; [exact Hlast | exact Hbuilt]. }
  destruct (precomputeSegments c) as [c1|] eqn:Hpre; [|discriminate].
  cbn [bind].
  destruct (findSegment c1 t) as [i|] eqn:Hfind; [|discriminate].
  cbn [bind].
  destruct (precomputeSegments_Ok _ _ Hpre) as (Hkfs & Hls & Hbuilt).
  assert (Hwf' : forall m' : mat4,
             wellFormed (remember (setLastSegment c1 i) t m')).
  { intros m'. split; cbn [remember setLastSegment keyframes lastSegment
                            segments segmentsCached smallStore].
    - unfold smallStore. cbn [remember setLastSegment keyframes].
      intros Hsmall. rewrite Hkfs in Hsmall |- *.
      destruct (precomputeSegments_built c Hwf Hsmall) as (segs & Hsegs & Hpre').
      { rewrite Ekfs. cbn. lia. }
      rewrite Hpre in Hpre'. injection Hpre' as ->.
      destruct (buildSegments_Ok _ _ Hsmall Hsegs) as [Hm _].
      pose proof (buildSegments_contiguous _ _ Hsmall Hsegs) as Hcont.
      destruct Hwf as [Hlast _]. specialize (Hlast Hsmall).
      assert (Hlen : (2 <= List.length (keyframes c))%nat).
      { rewrite Ekfs. cbn. lia. }
      destruct (findSegment_located (withSegments c segs) t)
        as (i' & Hfind' & Hloc);
        cbn [withSegments keyframes segments lastSegment];
        try lia; try assumption.
      rewrite Hfind in Hfind'. injection Hfind' as <-.
      destruct Hloc as (seg & Hi & Hseg & _).
      cbn [withSegments segments] in Hseg.
      assert (Z.to_nat i < List.length segs)%nat; [|lia].
      apply nth_error_Some. congruence.
    - intros Hc. apply Hbuilt; [apply Hwf | exact Hc]. }
  destruct (wrap_int (Z.of_nat (List.length (segments (setLastSegment c1 i))))
            <=? i)%Z.
  - destruct (at_index _ _) as [lastKF|]; [|discriminate].
    cbn [bind]. intros [= <- <- <-]. apply Hwf'.
  - destruct (at_index _ _) as [seg|]; [|discriminate].
    cbn [bind]. intros [= <- <- <-]. apply Hwf'.
Qed.

Lemma reachable_wellFormed (c : Controller) : reachable c -> wellFormed c.
Proof.
  induction 1 as [|c c' op Hreach IH Hrun].
  - apply wellFormed_new.
  - destruct op as [kf | kfs | | t useQuat useBSplines]; cbn [run] in Hrun.
    + injection Hrun as <-. apply (wellFormed_mutate c (Append kf) IH).
    + injection Hrun as <-. apply (wellFormed_mutate c (AppendBatch kfs) IH).
    + injection Hrun as <-. apply (wellFormed_mutate c Clear IH).
    + unfold getTransformationMatrix in Hrun.
      destruct (getTransformationMatrix_traced c t useQuat useBSplines)
        as [[[b m] c1]|] eqn:Htraced; [|discriminate].
      cbn in Hrun. injection Hrun as <-.
      eapply wellFormed_query; eassumption.
Qed.

End Evaluate.

(** ** The segment search *)

Section SegmentSearch.

Context {G : Glm}.

(** C10.  In every state the public methods can lead to, when the store
    holds at least two keyframes (and few enough for an [int]) and the
    segment array is built, [findSegment] returns an index between 0 and
    the segment count minus one, whatever the query time; and a query never
    takes the end-of-animation branch nor reads outside the segment
    array. *)
Theorem findSegment_in_range (c : Controller) (t : Qc) :
  reachable c -> smallStore c ->
  (2 <= List.length (keyframes c))%nat ->
  segmentsCached c = true ->
  (exists i : Z,
     findSegment c t = Ok i
     /\ (0 <= i <= Z.of_nat (List.length (segments c)) - 1)%Z)
  /\ forall useQuat useBSplines : bool,
       exists (b : Branch) (m : mat4) (c' : Controller),
         getTransformationMatrix_traced c t useQuat useBSplines = Ok (b, m, c')
         /\ b <> EndOfAnimation.
Proof.
  intros Hreach Hsmall Hlen Hcached.
  pose proof (reachable_wellFormed c Hreach) as Hwf.
  split.
  - destruct Hwf as [Hlast Hbuilt]. specialize (Hlast Hsmall).
    specialize (Hbuilt Hcached). unfold smallStore in Hsmall.
    destruct (buildSegments_Ok _ _ Hsmall Hbuilt) as [Hm _].
    pose proof (buildSegments_contiguous _ _ Hsmall Hbuilt) as Hcont.
    destruct (findSegment_located c t) as (i & Hfind & Hloc);
      try lia; try assumption.
    exists i. split; [assumption|].
    destruct Hloc as (seg & Hi & Hseg & _).
    assert (Z.to_nat i < List.length (segments c))%nat; [|lia].
    apply nth_error_Some. congruence.
  - intros useQuat useBSplines.
    destruct (cacheHit c t) eqn:Hhit.
    + exists CacheHit, (cachedTransform c), c.
      unfold getTransformationMatrix_traced. rewrite Hhit.
      destruct (keyframes c); [cbn in Hlen; lia|].
      split; [reflexivity | discriminate].
    + destruct (query_in_segment c t Hwf Hsmall Hlen Hhit)
        as (segs & i & seg & _ & _ & _ & _ & Hquery).
      rewrite Hquery. do 3 eexists. split; [reflexivity | discriminate].
Qed.

End SegmentSearch.

(** A query does not change the store. *)
Lemma query_keeps_keyframes {G : Glm} (c c' : Controller) (t : Qc)
  (useQuat useBSplines : bool) (b : Branch) (m : mat4) :
  getTransformationMatrix_traced c t useQuat useBSplines = Ok (b, m, c') ->
  keyframes c' = keyframes c.
Proof.
  unfold getTransformationMatrix_traced.
  destruct (keyframes c) as [|kf0 rest] eqn:Ekfs;
    [intros [= <- <- <-]; exact Ekfs|].
  destruct (cacheHit c t); [intros [= <- <- <-]; exact Ekfs|].
  destruct rest as [|kf1 rest]; [intros [= <- <- <-]; exact Ekfs|].
  destruct (precomputeSegments c) as [c1|] eqn:Hpre; [|discriminate].
  cbn [bind]. destruct (findSegment c1 t) as [i|]; [|discriminate].
  cbn [bind]. destruct (precomputeSegments_Ok _ _ Hpre) as (Hkfs & _).
  destruct (_ <=? _)%Z.
  - destruct (at_index _ _); [|discriminate]. cbn [bind].
    intros [= <- <- <-]. cbn. congruence.
  - destruct (at_index _ _); [|discriminate]. cbn [bind].
    intros [= <- <- <-]. cbn. congruence.
Qed.

Lemma afterQuery_keyframes (c : Controller) (t : Qc)
  (useQuat useBSplines : bool) :
  keyframes (Examples.afterQuery c t useQuat useBSplines) = keyframes c.
Proof.
  unfold Examples.afterQuery, getTransformationMatrix.
  destruct (getTransformationMatrix_traced c t useQuat useBSplines)
    as [[[b m] c']|] eqn:E; [|reflexivity].
  cbn. apply (query_keeps_keyframes _ _ _ _ _ _ _ E).
Qed.

Lemma reachable_afterQuery (c : Controller) (t : Qc)
  (useQuat useBSplines : bool) :
  reachable c -> reachable (Examples.afterQuery c t useQuat useBSplines).
Proof.
  intros Hreach. unfold Examples.afterQuery.
  destruct (getTransformationMatrix c t useQuat useBSplines) as [r|] eqn:E;
    [|assumption].
  apply (reachable_run c (snd r)
           (OpGetTransformationMatrix t useQuat useBSplines) Hreach).
  cbn [run]. rewrite E. reflexivity.
Defined.

Lemma reachable_oneKeyFrame : reachable Examples.oneKeyFrame.
Proof.
  exact (reachable_run _ _ (OpAddKeyFrame Examples.kfA) reachable_new eq_refl).
Defined.

Lemma reachable_twoKeyFrames : reachable Examples.twoKeyFrames.
Proof.
  exact (reachable_run _ _ (OpAddKeyFrame Examples.kfB)
           reachable_oneKeyFrame eq_refl).
Defined.

Lemma reachable_threeKeyFrames : reachable Examples.threeKeyFrames.
Proof.
  exact (reachable_run _ _ (OpAddKeyFrame Examples.kfC)
           reachable_twoKeyFrames eq_refl).
Defined.



Lemma findSegment_in_range_witness :
  let c := Examples.afterQuery Examples.threeKeyFrames (fl 3) true false in
  reachable c /\ smallStore c
  /\ (2 <= List.length (keyframes c))%nat
  /\ segmentsCached c = true
  /\ (exists i : Z,
        findSegment c (fl 1) = Ok i
        /\ (0 <= i <= Z.of_nat (List.length (segments c)) - 1)%Z)
  /\ forall useQuat useBSplines : bool,
       exists (b : Branch) (m : mat4) (c' : Controller),
         getTransformationMatrix_traced c (fl 1) useQuat useBSplines
         = Ok (b, m, c')
         /\ b <> EndOfAnimation.
Proof.
  intros c.
  assert (Hreach : reachable c)
    by (apply reachable_afterQuery, reachable_threeKeyFrames).
  assert (Hsmall : smallStore c) by (unfold smallStore; now vm_compute).
  assert (Hlen : (2 <= List.length (keyframes c))%nat)
    by (vm_compute; repeat constructor).
  assert (Hcached : segmentsCached c = true) by (vm_compute; reflexivity).
  repeat (split; [assumption|]).
  exact (findSegment_in_range c (fl 1) Hreach Hsmall Hlen Hcached).
Defined.

(** ** The caches *)

Lemma matrix_eqb_refl (a : Rational.matrix) : Rational.matrix_eqb a a = true.
Proof.
  assert (Hq : forall x : Qc, Qc_eq_bool x x = true).
  { intros x. unfold Qc_eq_bool. destruct (Qc_eq_dec x x); congruence. }
  unfold Rational.matrix_eqb, Rational.vec4_eqb. now rewrite !Hq.
Qed.

(** Two matrices that the decision procedure tells apart differ. *)
Lemma matrix_neq (a b : Rational.matrix) :
  Rational.matrix_eqb a b = false -> a <> b.
Proof.
  intros H ->. rewrite matrix_eqb_refl in H. discriminate.
Qed.



Lemma returnDifferentb_sound (r1 r2 : result (mat4 * Controller)) :
  Examples.returnDifferentb r1 r2 = true -> Examples.returnDifferent r1 r2.
Proof.
  destruct r1 as [[m1 c1]|e1]; [|discriminate].
  destruct r2 as [[m2 c2]|e2]; cbn; [|discriminate].
  intros H. exists m1, m2, c1, c2. split; [reflexivity|].
  split; [reflexivity|]. apply matrix_neq. now apply negb_true_iff.
Qed.


Section Caches.

Context {G : Glm}.


(** After a mutation the cache cannot be hit. *)
Lemma cacheHit_invalid (c : Controller) (t : Qc) :
  lastTime c = fl (-1) -> cacheHit c t = false.
Proof.
  intros H. unfold cacheHit. rewrite H. apply andb_false_r.
Qed.

(** C6.  Every mutation of the store, from any state the public methods
    lead to, leaves the cached query time at the sentinel -1 and the
    segment array marked stale; the next query (on a store of fewer than
    2^30 keyframes) does not take the cache-hit branch: either the store
    holds fewer than two keyframes and no segment is read, or the query
    evaluates a segment and leaves the segment array rebuilt from the
    store. *)
Theorem mutation_invalidates_caches (c : Controller) (mu : Mutation) :
  reachable c -> smallStore (mutate c mu) ->
  lastTime (mutate c mu) = fl (-1)
  /\ segmentsCached (mutate c mu) = false
  /\ forall (t : Qc) (useQuat useBSplines : bool),
       cacheHit (mutate c mu) t = false
       /\ exists (b : Branch) (m : mat4) (c' : Controller),
            getTransformationMatrix_traced (mutate c mu) t useQuat useBSplines
            = Ok (b, m, c')
            /\ b <> CacheHit
            /\ (((List.length (keyframes (mutate c mu)) < 2)%nat
                 /\ (b = EmptyStore \/ b = SingleKeyFrame))
                \/ ((2 <= List.length (keyframes (mutate c mu)))%nat
                    /\ b = InSegment
                    /\ segmentsCached c' = true
                    /\ buildSegments (keyframes (mutate c mu))
                       = Ok (segments c'))).
Proof.
  intros Hreach Hsmall.
  assert (Hlast : lastTime (mutate c mu) = fl (-1)) by (destruct mu; reflexivity).
  assert (Hstale : segmentsCached (mutate c mu) = false)
    by (destruct mu; reflexivity).
  split; [assumption|]. split; [assumption|].
  intros t useQuat useBSplines.
  pose proof (cacheHit_invalid _ t Hlast) as Hmiss. split; [assumption|].
  pose proof (wellFormed_mutate c mu (reachable_wellFormed c Hreach)) as Hwf.
  set (c1 := mutate c mu) in *.
  destruct (keyframes c1) as [|kf0 [|kf1 rest]] eqn:Ekfs.
  - exists EmptyStore, mat4_identity, c1.
    unfold getTransformationMatrix_traced. rewrite Ekfs.
    split; [reflexivity|]. split; [discriminate|]. left. cbn. split; [lia|tauto].
  - do 3 eexists. unfold getTransformationMatrix_traced. rewrite Ekfs, Hmiss.
    split; [reflexivity|]. split; [discriminate|]. left. cbn. split; [lia|tauto].
  - destruct (query_in_segment c1 t Hwf Hsmall) as
      (segs & i & seg & Hsegs & _ & _ & _ & Hquery);
      [rewrite Ekfs; cbn; lia | assumption |].
    rewrite Hquery. do 3 eexists.
    split; [reflexivity|]. split; [discriminate|].
    right. rewrite <- Ekfs.
    split; [rewrite Ekfs; cbn; lia|]. split; [reflexivity|].
    split; [reflexivity | exact Hsegs].
Qed.

Lemma fold_addKeyFrame_invalid (kfs : list KeyFrame) : forall c : Controller,
  lastTime c = fl (-1) -> segmentsCached c = false ->
  fold_left addKeyFrame kfs c = addMultipleKeyFrames c kfs.
Proof.
  induction kfs as [|kf kfs IH]; intros c Hlast Hstale.
  - destruct c; cbn in *; subst; reflexivity.
  - cbn [fold_left]. rewrite IH by reflexivity. reflexivity.
Qed.

(** C7, amended.  For every starting state and every non-empty list of
    keyframes, [addMultipleKeyFrames] leaves the controller in the state
    that one [addKeyFrame] per element, in order, leads to; hence every
    later query gives the same result in both.  (For any list, empty or
    not, the stored keyframes are the same.) *)
Theorem batch_equals_appends (c : Controller) (kfs : list KeyFrame) :
  kfs <> [] ->
  addMultipleKeyFrames c kfs = fold_left addKeyFrame kfs c
  /\ forall (t : Qc) (useQuat useBSplines : bool),
       getTransformationMatrix (addMultipleKeyFrames c kfs) t useQuat
         useBSplines
       = getTransformationMatrix (fold_left addKeyFrame kfs c) t useQuat
           useBSplines.
Proof.
  intros Hne.
  assert (H : addMultipleKeyFrames c kfs = fold_left addKeyFrame kfs c).
  { destruct kfs as [|kf kfs]; [congruence|].
    cbn [fold_left]. rewrite fold_addKeyFrame_invalid by reflexivity.
    reflexivity. }
  split; [assumption|]. intros t useQuat useBSplines. now rewrite H.
Qed.

End Caches.

Lemma mutation_invalidates_caches_witness :
  reachable Examples.twoKeyFrames
  /\ smallStore (mutate Examples.twoKeyFrames (Append Examples.kfC))
  /\ lastTime (mutate Examples.twoKeyFrames (Append Examples.kfC)) = fl (-1)
  /\ segmentsCached (mutate Examples.twoKeyFrames (Append Examples.kfC))
     = false.
Proof.
  assert (Hsmall : smallStore
                     (mutate Examples.twoKeyFrames (Append Examples.kfC)))
    by (unfold smallStore; now vm_compute).
  split; [exact reachable_twoKeyFrames|]. split; [exact Hsmall|].
  destruct (mutation_invalidates_caches Examples.twoKeyFrames
              (Append Examples.kfC) reachable_twoKeyFrames Hsmall)
    as (H1 & H2 & _).
  split; assumption.
Defined.



Lemma batch_equals_appends_witness :
  [Examples.kfB; Examples.kfC] <> []
  /\ addMultipleKeyFrames Examples.oneKeyFrame [Examples.kfB; Examples.kfC]
     = fold_left addKeyFrame [Examples.kfB; Examples.kfC] Examples.oneKeyFrame.
Proof.
  assert (Hne : [Examples.kfB; Examples.kfC] <> []) by discriminate.
  split; [exact Hne|].
  exact (proj1 (batch_equals_appends Examples.oneKeyFrame
                  [Examples.kfB; Examples.kfC] Hne)).
Defined.

(** C7 as stated fails on the empty list: [addMultipleKeyFrames] with no
    keyframe still invalidates the caches, zero calls of [addKeyFrame] do
    not, and a later query tells the two apart. *)
Lemma batch_empty_counterexample :
  let c := Examples.afterQuery Examples.twoKeyFrames (fl 0) true false in
  reachable c
  /\ addMultipleKeyFrames c [] <> fold_left addKeyFrame [] c
  /\ Examples.returnDifferent
       (getTransformationMatrix (addMultipleKeyFrames c []) (fl 0) true true)
       (getTransformationMatrix (fold_left addKeyFrame [] c) (fl 0) true true).
Proof.
  intros c. split; [|split].
  - apply reachable_afterQuery, reachable_twoKeyFrames.
  - intros H. apply (f_equal segmentsCached) in H. vm_compute in H.
    discriminate.
  - apply returnDifferentb_sound. vm_compute. reflexivity.
Qed.

(** ** The rational GLM satisfies the laws *)

Lemma Qfloor_unique (x : Q) (n : Z) :
  (inject_Z n <= x)%Q -> (x < inject_Z (n + 1))%Q -> Qfloor x = n.
Proof.
  intros Hlo Hhi.
  assert (H1 : (n <= Qfloor x)%Z).
  { rewrite <- (Qfloor_Z n). apply Qfloor_resp_le, Hlo. }
  assert (H2 : (Qfloor x < n + 1)%Z).
  { rewrite Zlt_Qlt. apply Qle_lt_trans with x; [apply Qfloor_le | exact Hhi]. }
  lia.
Qed.

Lemma Qfloor_shift (x : Q) (k : Z) :
  Qfloor (x + inject_Z k) = (Qfloor x + k)%Z.
Proof.
  apply Qfloor_unique.
  - rewrite inject_Z_plus. pose proof (Qfloor_le x). lra.
  - replace (Qfloor x + k + 1)%Z with ((Qfloor x + 1) + k)%Z by lia.
    rewrite inject_Z_plus. pose proof (Qlt_floor x). lra.
Qed.

Lemma reduce_full_turn (r : Qc) (k : Z) :
  Rational.reduce (r + fl 2 * fl (inject_Z k)) = Rational.reduce r.
Proof.
  unfold Rational.reduce.
  assert (Hfloor : Qfloor ((r + fl 2 * fl (inject_Z k))%Qc / fl 2)
                   = (Qfloor (r / fl 2) + k)%Z).
  { rewrite <- Qfloor_shift. apply Qfloor_comp. qc2q. field. }
  rewrite Hfloor. clear Hfloor. generalize (Qfloor (r / fl 2)). intros f.
  rewrite inject_Z_plus. qc_ring.
Qed.

Lemma cosine_full_turn (r : Qc) (k : Z) :
  Rational.cosine (r + fl 2 * fl (inject_Z k)) = Rational.cosine r.
Proof.
  unfold Rational.cosine. rewrite reduce_full_turn. reflexivity.
Qed.

Lemma sine_full_turn (r : Qc) (k : Z) :
  Rational.sine (r + fl 2 * fl (inject_Z k)) = Rational.sine r.
Proof.
  unfold Rational.sine. rewrite <- (cosine_full_turn (r - fl 0.5) k).
  f_equal. qc_ring.
Qed.

Lemma quaternion_ext (a b : Rational.quaternion) :
  Rational.qw a = Rational.qw b -> Rational.qx a = Rational.qx b ->
  Rational.qy a = Rational.qy b -> Rational.qz a = Rational.qz b -> a = b.
Proof. destruct a, b; cbn; intros -> -> -> ->; reflexivity. Qed.

#[export] Instance rational_glm_laws : GlmLaws Rational.glm.
Proof.
  split.
  - intros x y. cbn. unfold Rational.slerp, Rational.mix.
    apply quaternion_ext; cbn; qc_ring.
  - intros x y. cbn. unfold Rational.slerp, Rational.mix.
    destruct (Rational.dot x y <? 0).
    + unfold Rational.mat4_cast; cbn.
      f_equal; f_equal; qc_ring.
    + unfold Rational.mat4_cast; cbn.
      f_equal; f_equal; qc_ring.
  - intros m deg k ax. cbn. unfold Rational.rotate, Rational.radians.
    replace ((deg + fl 360 * fl (inject_Z k)) / fl 180)
      with (deg / fl 180 + fl 2 * fl (inject_Z k)).
    + rewrite cosine_full_turn, sine_full_turn. reflexivity.
    + apply Qc_is_canon. qc2q. field.
Qed.

(** ** The spline blends at the ends of a segment *)

Section Blends.

Context {G : Glm}.



Lemma fastCatmullRomEuler_0 (seg : SegmentData) :
  fastCatmullRomEuler 0 seg = e1 seg.
Proof. apply vec3_ext; cbn; qc_ring. Qed.

Lemma fastCatmullRomEuler_1 (seg : SegmentData) :
  fastCatmullRomEuler 1 seg = e2 seg.
Proof. apply vec3_ext; cbn; qc_ring. Qed.

Lemma segmentParameter_before (seg : SegmentData) (t : Qc) :
  t <= startTime seg -> segmentParameter seg t = 0.
Proof.
  intros H. unfold segmentParameter.
  destruct (0 <? duration seg) eqn:Ed; [|reflexivity]. order_hyps.
  assert (Hx : (t - startTime seg) / duration seg <= 0).
  { qc2q. apply Qle_shift_div_r; [assumption | lra]. }
  unfold clamp, fmax, fmin.
  destruct ((t - startTime seg) / duration seg <? 0) eqn:E1; order_hyps.
  - destruct (1 <? 0) eqn:E2; order_hyps; [exfalso; qc_lra | reflexivity].
  - assert (Hz : (t - startTime seg) / duration seg = 0)
      by (apply Qcle_antisym; assumption).
    rewrite Hz. destruct (1 <? 0) eqn:E2; order_hyps;
      [exfalso; qc_lra | reflexivity].
Qed.

Lemma segmentParameter_after (seg : SegmentData) (t : Qc) :
  duration seg = endTime seg - startTime seg ->
  startTime seg < endTime seg -> endTime seg <= t ->
  segmentParameter seg t = 1.
Proof.
  intros Hd Hlt H. unfold segmentParameter.
  assert (Hpos : 0 < duration seg) by (rewrite Hd; qc_lra).
  apply Qcltb_lt in Hpos. rewrite Hpos. apply Qcltb_lt in Hpos.
  assert (Hx : 1 <= (t - startTime seg) / duration seg).
  { rewrite Hd in *. qc2q. apply Qle_shift_div_l; [assumption | lra]. }
  unfold clamp, fmax, fmin.
  destruct ((t - startTime seg) / duration seg <? 0) eqn:E1; order_hyps.
  - exfalso. qc_lra.
  - destruct (1 <? (t - startTime seg) / duration seg) eqn:E2; order_hyps.
    + reflexivity.
    + apply Qcle_antisym; assumption.
Qed.

End Blends.

(** ** Where a query time falls in a store with increasing times *)

Section Located.

Context {G : Glm}.

Variable kfs : list KeyFrame.
Variable segs : list SegmentData.

Hypothesis kfs_small : (Z.of_nat (List.length kfs) <= 2 ^ 30)%Z.
Hypothesis segs_built : buildSegments kfs = Ok segs.

Lemma segment_at (j : nat) (seg : SegmentData) :
  nth_error segs j = Some seg ->
  segmentOf kfs j seg /\ (j + 1 < List.length kfs)%nat.
Proof.
  intros Hseg.
  destruct (buildSegments_Ok kfs segs kfs_small segs_built) as [Hlen Hnth].
  assert (Hj : (j < List.length segs)%nat).
  { apply nth_error_Some. congruence. }
  destruct (Hnth j) as (seg' & Hseg' & Hof); [lia|].
  assert (seg' = seg) by congruence. subst seg'.
  split; [assumption | lia].
Qed.

Hypothesis kfs_increasing : strictlyIncreasing kfs.


(** Unpacks [segmentOf]: the two keyframes that bound the segment. *)
Lemma segmentOf_bounds (j : nat) (seg : SegmentData) :
  segmentOf kfs j seg ->
  exists k1 k2 : KeyFrame,
    nth_error kfs j = Some k1 /\ nth_error kfs (j + 1) = Some k2
    /\ startTime seg = time k1 /\ endTime seg = time k2
    /\ duration seg = endTime seg - startTime seg
    /\ startTime seg < endTime seg
    /\ p1 seg = position k1 /\ p2 seg = position k2
    /\ e1 seg = eulerAngles k1
    /\ normalizeAngles (eulerAngles k2) (eulerAngles k1) = Ok (e2 seg)
    /\ q1 seg = quaternion k1 /\ q2 seg = quaternion k2.
Proof.
  intros (k0 & k1 & k2 & k3 & _ & H1 & H2 & _ & _ & Hp1 & Hp2 & _ & _ & He1
          & He2 & _ & Hq1 & Hq2 & Hs & He & Hd).
  exists k1, k2.
  split; [assumption|]. split; [assumption|].
  split; [assumption|]. split; [assumption|].
  split; [rewrite Hs, He; assumption|].
  split; [|tauto].
  rewrite Hs, He. apply (kfs_increasing j (j + 1)%nat k1 k2 H1 H2). lia.
Qed.




End Located.

(** ** The poses a query returns *)

Section Poses.

Context {G : Glm} {GL : GlmLaws G}.

Lemma eulerRotation_full_turns (e e' : vec3) :
  (forall i : axis,
     exists k : Z, vec3_get e' i = vec3_get e i + fl 360 * fl (inject_Z k)) ->
  eulerRotation e' = eulerRotation e.
Proof.
  intros H.
  destruct (H AxisX) as [kx Hx], (H AxisY) as [ky Hy], (H AxisZ) as [kz Hz].
  cbn [vec3_get] in Hx, Hy, Hz. unfold eulerRotation.
  rewrite Hx, Hy, Hz, !rotate_full_turn. reflexivity.
Qed.

Lemma getTransformationMatrix_of_traced (c c' : Controller) (t : Qc)
  (useQuat useBSplines : bool) (b : Branch) (m : mat4) :
  getTransformationMatrix_traced c t useQuat useBSplines = Ok (b, m, c') ->
  getTransformationMatrix c t useQuat useBSplines = Ok (m, c').
Proof.
  intros H. unfold getTransformationMatrix. rewrite H. reflexivity.
Qed.





End Poses.

(** ** The pose theorems at concrete stores *)

Lemma threeKeyFrames_increasing :
  strictlyIncreasing (keyframes Examples.threeKeyFrames).
Proof.
  intros i j a b Ha Hb Hij.
  destruct i as [|[|[|i]]]; destruct j as [|[|[|j]]];
    cbn in Ha, Hb; try lia;
    try (destruct i; discriminate); try (destruct j; discriminate);
    injection Ha as <-; injection Hb as <-;
    apply Qcltb_lt; vm_compute; reflexivity.
Defined.

Lemma threeKeyFrames_small : smallStore Examples.threeKeyFrames.
Proof. unfold smallStore. now vm_compute. Defined.







(** ** parseKeyFramesFromString *)

Section ParserProperties.

Context {G : Glm}.

Variable stof : string -> result Qc.
Variable indeterminate : vec3.

Lemma parseGroup_without_colon (st : ParserState) (g : string) :
  hasColon g = false ->
  exists st' : ParserState,
    parseGroup stof indeterminate st g = Ok st'
    /\ parsedFrames st' = parsedFrames st
    /\ nextTime st' = nextTime st.
Proof.
  unfold hasColon, parseGroup. intros H.
  destruct (String.length g =? 0)%nat; [exists st; tauto|].
  destruct (String.index 0 ":" g); [discriminate|].
  eexists. split; [reflexivity|]. split; reflexivity.
Qed.

Lemma parseGroup_with_colon (st st' : ParserState) (g : string) :
  hasColon g = true ->
  parseGroup stof indeterminate st g = Ok st' ->
  exists pos euler : vec3,
    parsedFrames st'
    = parsedFrames st ++ [KeyFrame_of_euler pos euler (nextTime st)]
    /\ nextTime st' = nextTime st + timeStep.
Proof.
  unfold hasColon, parseGroup. intros H.
  destruct (String.length g =? 0)%nat eqn:Elen.
  { destruct g; [discriminate H | discriminate Elen]. }
  destruct (String.index 0 ":" g) as [colonPos|]; [|discriminate].
  destruct (parseComponents stof _ 0 indeterminate) as [pos|];
    [|discriminate].
  cbn [bind].
  destruct (parseComponents stof _ 0 indeterminate) as [euler|];
    [|discriminate].
  cbn [bind]. intros [= <-]. exists pos, euler. split; reflexivity.
Qed.

Lemma parseGroups_frames (groups : list string) :
  forall st st' : ParserState,
    foldM (parseGroup stof indeterminate) groups st = Ok st' ->
    exists new : list KeyFrame,
      parsedFrames st' = parsedFrames st ++ new
      /\ List.length new = List.length (filter hasColon groups)
      /\ nextTime st'
         = nextTime st + timeStep * fl (inject_Z (Z.of_nat (List.length new)))
      /\ forall (k : nat) (kf : KeyFrame),
           nth_error new k = Some kf ->
           time kf = nextTime st + timeStep * fl (inject_Z (Z.of_nat k)).
Proof.
  induction groups as [|g groups IH]; intros st st' Hrun; cbn [foldM] in Hrun.
  - injection Hrun as <-. exists []. rewrite app_nil_r.
    split; [reflexivity|]. split; [reflexivity|].
    split; [cbn; qc_ring|]. intros [|k] kf H; discriminate.
  - destruct (parseGroup stof indeterminate st g) as [st1|] eqn:Hg;
      [|discriminate].
    cbn [bind] in Hrun.
    destruct (IH st1 st' Hrun) as (new & Hnew & Hlen & Htime & Hnth).
    cbn [filter]. destruct (hasColon g) eqn:Hcolon.
    + destruct (parseGroup_with_colon st st1 g Hcolon Hg)
        as (pos & euler & Hframes & Hnext).
      exists (KeyFrame_of_euler pos euler (nextTime st) :: new).
      rewrite Hnew, Hframes, <- app_assoc. split; [reflexivity|].
      split; [cbn; congruence|]. split.
      * rewrite Htime, Hnext. cbn [List.length].
        rewrite Nat2Z.inj_succ. unfold Z.succ. rewrite inject_Z_plus.
        qc_ring.
      * intros [|k] kf Hk; cbn [nth_error] in Hk.
        -- injection Hk as <-. cbn. qc_ring.
        -- rewrite (Hnth k kf Hk), Hnext.
           rewrite Nat2Z.inj_succ. unfold Z.succ. rewrite inject_Z_plus.
           qc_ring.
    + destruct (parseGroup_without_colon st g Hcolon)
        as (st1' & Hg' & Hframes & Hnext).
      assert (st1' = st1) by congruence. subst st1'.
      exists new. rewrite Hnew, Hframes, <- Hnext.
      repeat split; try assumption.
Qed.


End ParserProperties.

(** Closes an equation between two structures that agree up to the
    representation of the rationals at their leaves. *)
Ltac same_up_to_rationals :=
  repeat match goal with
         | |- @eq Qc _ _ => apply Qc_is_canon; reflexivity
         | |- _ => reflexivity
         | |- _ => progress f_equal
         end.


(** A group that holds a colon and a coordinate that is no number: the
    exception of [std::stof] leaves the function; nothing is returned. *)
Example parse_not_a_number {G : Glm} (indeterminate : vec3) (c : Controller) :
  parseKeyFramesFromString stof_decimal indeterminate "1,2,x:0,0,0" (Some c)
  = Err InvalidArgument.
Proof. reflexivity. Qed.



(** * Further properties of the controller *)

(** ** normalizeAngles on angles already within half a turn *)

Lemma normalizeAxis_fixed (res reference : vec3) (i : axis) :
  fl (-180) <= vec3_get res i - vec3_get reference i ->
  vec3_get res i - vec3_get reference i <= fl 180 ->
  normalizeAxis res reference i = Ok res.
Proof.
  intros Hlo Hhi. unfold normalizeAxis, turns.
  rewrite while_loop_step.
  assert (Hdown : (fl 180 <? vec3_get res i - vec3_get reference i) = false)
    by (apply Qcltb_ge; assumption).
  rewrite Hdown. cbn [bind]. rewrite while_loop_step.
  assert (Hup : (vec3_get res i - vec3_get reference i <? fl (-180)) = false)
    by (apply Qcltb_ge; assumption).
  rewrite Hup. reflexivity.
Qed.

Lemma normalizeAngles_fixed (angles reference : vec3) :
  (forall i : axis,
     fl (-180) <= vec3_get angles i - vec3_get reference i
     /\ vec3_get angles i - vec3_get reference i <= fl 180) ->
  normalizeAngles angles reference = Ok angles.
Proof.
  intros H. unfold normalizeAngles.
  rewrite (normalizeAxis_fixed angles reference AxisX) by apply H.
  cbn [bind].
  rewrite (normalizeAxis_fixed angles reference AxisY) by apply H.
  cbn [bind]. apply normalizeAxis_fixed; apply H.
Qed.

(** X1.  [normalizeAngles] leaves angles that are within 180 degrees of
    the reference on every axis as they are (an angle exactly 180 degrees
    away is not moved to the other side), and it is idempotent:
    normalising its result against the same reference changes nothing. *)
Theorem normalizeAngles_idempotent (angles reference : vec3) :
  ((forall i : axis,
      fabs (vec3_get angles i - vec3_get reference i) <= fl 180) ->
   normalizeAngles angles reference = Ok angles)
  /\ exists res : vec3,
       normalizeAngles angles reference = Ok res
       /\ normalizeAngles res reference = Ok res.
Proof.
  split.
  - intros H. apply normalizeAngles_fixed. intros i.
    specialize (H i). apply fabs_le in H. destruct H as [Hlo Hhi].
    split; qc_lra.
  - destruct (normalizeAngles_spec angles reference) as (res & Hres & Hax).
    exists res. split; [assumption|].
    apply normalizeAngles_fixed. intros i.
    destruct (Hax i) as (k & _ & Hlo & Hhi). split; assumption.
Qed.

(** ** The interpolation parameter *)

Lemma clamp_range (x : Qc) : 0 <= clamp x 0 1 /\ clamp x 0 1 <= 1.
Proof.
  unfold clamp, fmax, fmin.
  destruct (x <? 0) eqn:E1; order_hyps.
  - destruct (1 <? 0) eqn:E2; order_hyps; split; qc_lra.
  - destruct (1 <? x) eqn:E2; order_hyps; split; qc_lra.
Qed.

Lemma clamp_monotone (x y : Qc) : x <= y -> clamp x 0 1 <= clamp y 0 1.
Proof.
  intros H. unfold clamp, fmax, fmin.
  destruct (x <? 0) eqn:Ex; destruct (y <? 0) eqn:Ey; order_hyps;
    repeat match goal with
           | |- context [if ?b then _ else _] =>
               let E := fresh "E" in destruct b eqn:E; order_hyps
           end; qc_lra.
Qed.

Lemma segmentParameter_bounds {G : Glm} (seg : SegmentData) (t : Qc) :
  0 <= segmentParameter seg t /\ segmentParameter seg t <= 1.
Proof.
  unfold segmentParameter.
  destruct (0 <? duration seg); [apply clamp_range|].
  split; apply Qcleb_le; reflexivity.
Qed.

(** X2.  The interpolation parameter of a segment always lies between 0
    and 1, is 0 when the duration of the segment is not positive, and never
    decreases when the query time grows. *)
Theorem segmentParameter_range {G : Glm} (seg : SegmentData) (t : Qc) :
  0 <= segmentParameter seg t
  /\ segmentParameter seg t <= 1
  /\ (duration seg <= 0 -> segmentParameter seg t = 0)
  /\ forall t' : Qc,
       t <= t' -> segmentParameter seg t <= segmentParameter seg t'.
Proof.
  unfold segmentParameter.
  destruct (0 <? duration seg) eqn:Ed; order_hyps.
  - split; [apply clamp_range|]. split; [apply clamp_range|].
    split; [intros H; exfalso; qc_lra|].
    intros t' Ht. apply clamp_monotone.
    unfold Qcdiv. apply Qcmult_le_compat_r; [qc_lra|].
    assert (Hinv : (0 < / duration seg)%Q) by (apply Qinv_lt_0_compat, Ed).
    qc_lra.
  - split; [apply Qcle_refl|]. split; [qc_lra|].
    split; [reflexivity|]. intros t' _. apply Qcle_refl.
Qed.

(** ** The blends and the control points *)

Lemma bspline_lower (t a b c d lo : Q) :
  (0 <= t)%Q -> (t <= 1)%Q ->
  (lo <= a)%Q -> (lo <= b)%Q -> (lo <= c)%Q -> (lo <= d)%Q ->
  (lo <= (1 # 6)
         * ((- (t * t * t) + 3 * (t * t) + - (3 * t) + 1) * a
            + (3 * (t * t * t) + - (6 * (t * t)) + 4) * b
            + (- (3) * (t * t * t) + 3 * (t * t) + 3 * t + 1) * c
            + t * t * t * d))%Q.
Proof.
  intros Ht0 Ht1 Ha Hb Hc Hd.
  assert (W0 : (0 <= (1 - t) * (1 - t) * (1 - t))%Q)
    by (repeat apply Qmult_le_0_compat; lra).
  assert (W3 : (0 <= t * t * t)%Q) by (repeat apply Qmult_le_0_compat; lra).
  assert (W1 : (0 <= 3 * (t * t * t) - 6 * (t * t) + 4)%Q).
  { assert (0 <= (1 - t) * (1 + t - t * t))%Q.
    { apply Qmult_le_0_compat; [lra|].
      assert (0 <= t * (1 - t))%Q by (apply Qmult_le_0_compat; lra). lra. }
    lra. }
  assert (W2 : (0 <= - (3) * (t * t * t) + 3 * (t * t) + 3 * t + 1)%Q).
  { assert (0 <= t * t * (1 - t))%Q
      by (repeat apply Qmult_le_0_compat; lra).
    lra. }
  assert (P0 : (0 <= (1 - t) * (1 - t) * (1 - t) * (a - lo))%Q)
    by (apply Qmult_le_0_compat; lra).
  assert (P1 : (0 <= (3 * (t * t * t) - 6 * (t * t) + 4) * (b - lo))%Q)
    by (apply Qmult_le_0_compat; lra).
  assert (P2 : (0 <= (- (3) * (t * t * t) + 3 * (t * t) + 3 * t + 1)
                     * (c - lo))%Q)
    by (apply Qmult_le_0_compat; lra).
  assert (P3 : (0 <= t * t * t * (d - lo))%Q)
    by (apply Qmult_le_0_compat; lra).
  lra.
Qed.

Lemma bspline_upper (t a b c d hi : Q) :
  (0 <= t)%Q -> (t <= 1)%Q ->
  (a <= hi)%Q -> (b <= hi)%Q -> (c <= hi)%Q -> (d <= hi)%Q ->
  ((1 # 6)
   * ((- (t * t * t) + 3 * (t * t) + - (3 * t) + 1) * a
      + (3 * (t * t * t) + - (6 * (t * t)) + 4) * b
      + (- (3) * (t * t * t) + 3 * (t * t) + 3 * t + 1) * c
      + t * t * t * d) <= hi)%Q.
Proof.
  intros Ht0 Ht1 Ha Hb Hc Hd.
  pose proof (bspline_lower t (- a) (- b) (- c) (- d) (- hi) Ht0 Ht1) as H.
  assert (Hneg : (- hi <= - a)%Q /\ (- hi <= - b)%Q /\ (- hi <= - c)%Q
                 /\ (- hi <= - d)%Q) by (repeat split; lra).
  destruct Hneg as (H1 & H2 & H3 & H4). specialize (H H1 H2 H3 H4). lra.
Qed.

Section BlendProperties.

Context {G : Glm}.

Lemma fastBSplinePosition_bounds (seg : SegmentData) (t : Qc) (ax : axis)
  (lo hi : Qc) :
  0 <= t -> t <= 1 ->
  (forall p : vec3,
     In p (controlPoints seg) -> lo <= vec3_get p ax /\ vec3_get p ax <= hi) ->
  lo <= vec3_get (fastBSplinePosition t seg) ax
  /\ vec3_get (fastBSplinePosition t seg) ax <= hi.
Proof.
  intros Ht0 Ht1 H.
  destruct (H (p0 seg)) as [L0 U0]; [cbn; tauto|].
  destruct (H (p1 seg)) as [L1 U1]; [cbn; tauto|].
  destruct (H (p2 seg)) as [L2 U2]; [cbn; tauto|].
  destruct (H (p3 seg)) as [L3 U3]; [cbn; tauto|].
  clear H.
  pose proof (bspline_lower t (vec3_get (p0 seg) ax) (vec3_get (p1 seg) ax)
                (vec3_get (p2 seg) ax) (vec3_get (p3 seg) ax) lo
                Ht0 Ht1 L0 L1 L2 L3) as HL.
  pose proof (bspline_upper t (vec3_get (p0 seg) ax) (vec3_get (p1 seg) ax)
                (vec3_get (p2 seg) ax) (vec3_get (p3 seg) ax) hi
                Ht0 Ht1 U0 U1 U2 U3) as HU.
  unfold fastBSplinePosition.
  destruct ax; cbn [vec3_get vadd smulv vx vy vz] in *; qc2q;
    change (/ 6)%Q with (1 # 6)%Q; split; lra.
Qed.

(** X3.  Under the B-spline family the interpolated position never leaves
    the box of the four control points of the segment: on each axis it lies
    between any two bounds that hold for the four of them, whatever the
    query time. *)
Theorem bspline_position_within_control_points (seg : SegmentData) (t : Qc)
  (ax : axis) (lo hi : Qc) :
  (forall p : vec3,
     In p (controlPoints seg) -> lo <= vec3_get p ax /\ vec3_get p ax <= hi) ->
  lo <= vec3_get (segmentPosition true (segmentParameter seg t) seg) ax
  /\ vec3_get (segmentPosition true (segmentParameter seg t) seg) ax <= hi.
Proof.
  intros H. unfold segmentPosition.
  destruct (segmentParameter_bounds seg t) as [H0 H1].
  apply fastBSplinePosition_bounds; assumption.
Qed.

(** X4.  When the four control points of a segment are one and the same
    point, both spline families return that point at every parameter: an
    object whose keyframes share a position does not move. *)
Theorem blends_keep_a_common_point (seg : SegmentData) (p : vec3) (t : Qc)
  (useBSplines : bool) :
  (forall q : vec3, In q (controlPoints seg) -> q = p) ->
  segmentPosition useBSplines t seg = p.
Proof.
  intros H.
  assert (H0 : p0 seg = p) by (apply H; cbn; tauto).
  assert (H1 : p1 seg = p) by (apply H; cbn; tauto).
  assert (H2 : p2 seg = p) by (apply H; cbn; tauto).
  assert (H3 : p3 seg = p) by (apply H; cbn; tauto).
  unfold segmentPosition, fastBSplinePosition, fastCatmullRomPosition.
  rewrite H0, H1, H2, H3.
  destruct useBSplines; apply vec3_ext; cbn; apply Qc_is_canon; qc2q; field.
Qed.

(** Two consecutive segments of the array built from a store share three
    control points, a boundary time and a boundary rotation. *)
Lemma adjacent_segments (c : Controller) (i : nat) (a b : SegmentData) :
  reachable c -> smallStore c -> segmentsCached c = true ->
  nth_error (segments c) i = Some a ->
  nth_error (segments c) (S i) = Some b ->
  p0 b = p1 a /\ p1 b = p2 a /\ p2 b = p3 a
  /\ startTime b = endTime a /\ q1 b = q2 a
  /\ exists k1 k2 : KeyFrame,
       e1 a = eulerAngles k1 /\ e1 b = eulerAngles k2
       /\ normalizeAngles (eulerAngles k2) (eulerAngles k1) = Ok (e2 a).
Proof.
  intros Hreach Hsmall Hcached Ha Hb.
  destruct (reachable_wellFormed c Hreach) as [_ Hbuilt].
  specialize (Hbuilt Hcached).
  destruct (segment_at _ _ Hsmall Hbuilt _ _ Ha) as [Hofa _].
  destruct (segment_at _ _ Hsmall Hbuilt _ _ Hb) as [Hofb Hlen].
  destruct Hofa as (a0 & a1 & a2 & a3 & _ & A1 & A2 & A3 & _ & Ap1 & Ap2 & Ap3
                    & _ & Ae1 & Ae2 & _ & _ & Aq2 & _ & Aend & _).
  destruct Hofb as (b0 & b1 & b2 & b3 & B0 & B1 & B2 & _ & Bp0 & Bp1 & Bp2
                    & _ & _ & Be1 & _ & _ & Bq1 & _ & Bstart & _).
  replace (S i - 1)%nat with i in B0 by lia.
  replace (i + 1)%nat with (S i) in A2 by lia.
  replace (Nat.min (i + 2) (List.length (keyframes c) - 1))
    with (S i + 1)%nat in A3 by lia.
  assert (b0 = a1) by congruence. assert (b1 = a2) by congruence.
  assert (b2 = a3) by congruence. subst b0 b1 b2.
  repeat (split; [congruence|]).
  exists a1, a2. repeat split; assumption.
Qed.

(** X5.  In the segment array built from a store, the position at the end
    of a segment (parameter 1) is the position at the start of the next
    segment (parameter 0), under both spline families: the path has no jump
    at a keyframe. *)
Theorem position_continuous_at_keyframes (c : Controller) (i : nat)
  (a b : SegmentData) (useBSplines : bool) :
  reachable c -> smallStore c -> segmentsCached c = true ->
  nth_error (segments c) i = Some a ->
  nth_error (segments c) (S i) = Some b ->
  segmentPosition useBSplines 1 a = segmentPosition useBSplines 0 b.
Proof.
  intros Hreach Hsmall Hcached Ha Hb.
  destruct (adjacent_segments c i a b Hreach Hsmall Hcached Ha Hb)
    as (H0 & H1 & H2 & _).
  unfold segmentPosition, fastBSplinePosition, fastCatmullRomPosition.
  rewrite H0, H1, H2.
  destruct useBSplines; apply vec3_ext; cbn; apply Qc_is_canon; qc2q; field.
Qed.

End BlendProperties.

Lemma bspline_position_within_control_points_witness :
  (forall p : vec3,
     In p (controlPoints Examples.segAB) ->
     fl 0 <= vec3_get p AxisX /\ vec3_get p AxisX <= fl 6)
  /\ fl 0 <= vec3_get (segmentPosition true
                         (segmentParameter Examples.segAB (fl 3))
                         Examples.segAB) AxisX
  /\ vec3_get (segmentPosition true (segmentParameter Examples.segAB (fl 3))
                 Examples.segAB) AxisX <= fl 6.
Proof.
  assert (H : forall p : vec3,
            In p (controlPoints Examples.segAB) ->
            fl 0 <= vec3_get p AxisX /\ vec3_get p AxisX <= fl 6).
  { intros p [<- | [<- | [<- | [<- | []]]]];
      split; apply Qcleb_le; vm_compute; reflexivity. }
  split; [exact H|].
  exact (bspline_position_within_control_points Examples.segAB (fl 3) AxisX
           (fl 0) (fl 6) H).
Defined.

Lemma blends_keep_a_common_point_witness :
  (forall q : vec3,
     In q (controlPoints Examples.segStill) -> q = Examples.vec 1 2 3)
  /\ segmentPosition true (fl 0.25) Examples.segStill = Examples.vec 1 2 3
  /\ segmentPosition false (fl 0.25) Examples.segStill = Examples.vec 1 2 3.
Proof.
  assert (H : forall q : vec3,
            In q (controlPoints Examples.segStill) -> q = Examples.vec 1 2 3).
  { intros q [<- | [<- | [<- | [<- | []]]]]; reflexivity. }
  split; [exact H|].
  split; apply (blends_keep_a_common_point Examples.segStill
                  (Examples.vec 1 2 3) (fl 0.25)); exact H.
Defined.

Lemma position_continuous_at_keyframes_witness :
  let c := Examples.afterQuery Examples.threeKeyFrames (fl 3) true false in
  reachable c /\ smallStore c /\ segmentsCached c = true
  /\ exists a b : SegmentData,
       nth_error (segments c) 0 = Some a
       /\ nth_error (segments c) 1 = Some b
       /\ forall useBSplines : bool,
            segmentPosition useBSplines 1 a = segmentPosition useBSplines 0 b.
Proof.
  intros c.
  assert (Hreach : reachable c)
    by (apply reachable_afterQuery, reachable_threeKeyFrames).
  assert (Hsmall : smallStore c) by (unfold smallStore; now vm_compute).
  assert (Hcached : segmentsCached c = true) by (vm_compute; reflexivity).
  assert (Hlen : List.length (segments c) = 2%nat) by (vm_compute; reflexivity).
  repeat (split; [assumption|]).
  destruct (nth_error_in_range (segments c) 0) as [a Ha]; [lia|].
  destruct (nth_error_in_range (segments c) 1) as [b Hb]; [lia|].
  exists a, b. split; [assumption|]. split; [assumption|].
  intros useBSplines.
  exact (position_continuous_at_keyframes c 0 a b useBSplines
           Hreach Hsmall Hcached Ha Hb).
Defined.

(** ** The segment search and the caches, further *)

Section SearchProperties.

Context {G : Glm}.

(** X6.  In a store whose keyframe times increase strictly, for a query
    time strictly between the times of two consecutive keyframes,
    [findSegment] returns the index of the segment between them, whatever
    the segment the previous query ended in. *)
Theorem findSegment_finds_the_segment (c : Controller) (t : Qc) (i : nat)
  (a b : KeyFrame) :
  reachable c -> smallStore c -> strictlyIncreasing (keyframes c) ->
  segmentsCached c = true ->
  nth_error (keyframes c) i = Some a ->
  nth_error (keyframes c) (S i) = Some b ->
  time a < t -> t < time b ->
  findSegment c t = Ok (Z.of_nat i).
Proof.
  intros Hreach Hsmall Hinc Hcached Ha Hb Hlo Hhi.
  destruct (reachable_wellFormed c Hreach) as [Hlast Hbuilt].
  specialize (Hlast Hsmall). specialize (Hbuilt Hcached).
  unfold smallStore in Hsmall.
  destruct (buildSegments_Ok _ _ Hsmall Hbuilt) as [Hm _].
  pose proof (buildSegments_contiguous _ _ Hsmall Hbuilt) as Hcont.
  assert (Hlen : (S i < List.length (keyframes c))%nat).
  { apply nth_error_Some. congruence. }
  destruct (findSegment_located c t) as (j & Hfind & Hloc);
    try lia; try assumption.
  rewrite Hfind. f_equal.
  destruct Hloc as (seg & Hj & Hseg & Hwhere).
  destruct (segment_at _ _ Hsmall Hbuilt _ _ Hseg) as [Hof Hjlen].
  destruct (segmentOf_bounds _ Hinc _ _ Hof)
    as (k1 & k2 & H1 & H2 & Hs & He & _).
  assert (Hidx : Z.to_nat j = i); [|lia].
  destruct Hwhere as [[Hstart Hend] | [[Hj0 Hbefore] | [Hjm Hafter]]].
  - assert (Z.to_nat j < S i)%nat.
    { destruct (Nat.lt_ge_cases (Z.to_nat j) (S i)) as [|Hge]; [assumption|].
      exfalso.
      assert (time b <= time k1).
      { destruct (Nat.eq_dec (S i) (Z.to_nat j)) as [Heq | Hne].
        - rewrite Heq in Hb. assert (b = k1) by congruence. subst b.
          apply Qcle_refl.
        - apply Qclt_le_weak.
          apply (Hinc (S i) (Z.to_nat j) b k1 Hb H1). lia. }
      rewrite Hs in Hstart. qc_lra. }
    assert (i < Z.to_nat j + 1)%nat.
    { destruct (Nat.lt_ge_cases i (Z.to_nat j + 1)) as [|Hge]; [assumption|].
      exfalso.
      assert (time k2 <= time a).
      { destruct (Nat.eq_dec (Z.to_nat j + 1) i) as [Heq | Hne].
        - rewrite Heq in H2. assert (a = k2) by congruence. subst a.
          apply Qcle_refl.
        - apply Qclt_le_weak.
          apply (Hinc (Z.to_nat j + 1)%nat i k2 a H2 Ha). lia. }
      rewrite He in Hend. qc_lra. }
    lia.
  - exfalso. subst j. change (Z.to_nat 0) with 0%nat in H1.
    assert (time k1 <= time a).
    { destruct (Nat.eq_dec 0 i) as [Heq | Hne].
      - rewrite <- Heq in Ha. assert (a = k1) by congruence. subst a.
        apply Qcle_refl.
      - apply Qclt_le_weak. apply (Hinc 0%nat i k1 a H1 Ha). lia. }
    rewrite Hs in Hbefore. qc_lra.
  - exfalso.
    assert (time b <= time k2).
    { destruct (Nat.eq_dec (S i) (Z.to_nat j + 1)) as [Heq | Hne].
      - rewrite Heq in Hb. assert (b = k2) by congruence. subst b.
        apply Qcle_refl.
      - apply Qclt_le_weak.
        apply (Hinc (S i) (Z.to_nat j + 1)%nat b k2 Hb H2). lia. }
    rewrite He in Hafter. qc_lra.
Qed.

(** X7.  In every state the public methods lead to, a segment array that
    is marked as built is the array computed from the keyframes now in the
    store, with one segment less than there are keyframes; and the index of
    the last segment used is never negative and never beyond the last
    segment. *)
Theorem segment_cache_is_coherent (c : Controller) :
  reachable c -> smallStore c ->
  (segmentsCached c = true ->
   buildSegments (keyframes c) = Ok (segments c)
   /\ List.length (segments c) = (List.length (keyframes c) - 1)%nat)
  /\ (0 <= lastSegment c
      <= Z.max 0 (Z.of_nat (List.length (keyframes c)) - 2))%Z.
Proof.
  intros Hreach Hsmall.
  destruct (reachable_wellFormed c Hreach) as [Hlast Hbuilt].
  split; [|apply Hlast, Hsmall].
  intros Hcached. specialize (Hbuilt Hcached). split; [assumption|].
  apply (buildSegments_Ok _ _ Hsmall Hbuilt).
Qed.

Lemma wellFormed_markStale (c : Controller) :
  wellFormed c -> wellFormed (markStale c).
Proof.
  intros [Hlast _]. split; [exact Hlast | discriminate].
Qed.

(** X8.  The lazily built segment array never changes an answer: in every
    state the public methods lead to, a query returns the same matrix as it
    would if the segment array were marked stale and built again. *)
Theorem segment_cache_is_transparent (c : Controller) (t : Qc)
  (useQuat useBSplines : bool) :
  reachable c -> smallStore c ->
  valueOnly (getTransformationMatrix c t useQuat useBSplines)
  = valueOnly (getTransformationMatrix (markStale c) t useQuat useBSplines).
Proof.
  intros Hreach Hsmall.
  pose proof (reachable_wellFormed c Hreach) as Hwf.
  destruct (Nat.le_gt_cases 2 (List.length (keyframes c))) as [Hlen | Hlen];
    [destruct (cacheHit c t) eqn:Hhit|].
  - unfold getTransformationMatrix, getTransformationMatrix_traced.
    cbn [markStale keyframes]. destruct (keyframes c); [reflexivity|].
    change (cacheHit (markStale c) t) with (cacheHit c t).
    rewrite Hhit. reflexivity.
  - destruct (precomputeSegments_built c Hwf Hsmall Hlen)
      as (segs & Hsegs & Hpre).
    destruct (precomputeSegments_built (markStale c)
                (wellFormed_markStale c Hwf) Hsmall Hlen)
      as (segs' & Hsegs' & Hpre').
    cbn [markStale keyframes] in Hsegs'.
    assert (segs' = segs) by congruence. subst segs'.
    change (withSegments (markStale c) segs) with (withSegments c segs)
      in Hpre'.
    unfold getTransformationMatrix, getTransformationMatrix_traced.
    rewrite Hpre'. cbn [markStale keyframes].
    change (cacheHit (markStale c) t) with (cacheHit c t).
    rewrite Hpre, Hhit.
    destruct (keyframes c) as [|kf0 [|kf1 rest]];
      [cbn in Hlen; lia | cbn in Hlen; lia |].
    cbn [bind]. destruct (findSegment (withSegments c segs) t) as [j|e];
      [|reflexivity].
    cbn [bind setLastSegment segments keyframes withSegments].
    destruct (_ <=? j)%Z.
    + destruct (at_index _ _); reflexivity.
    + destruct (at_index _ _); reflexivity.
  - unfold getTransformationMatrix, getTransformationMatrix_traced.
    cbn [markStale keyframes].
    change (cacheHit (markStale c) t) with (cacheHit c t).
    destruct (keyframes c) as [|kf0 [|kf1 rest]];
      [reflexivity | | cbn in Hlen; lia].
    destruct (cacheHit c t); reflexivity.
Qed.

End SearchProperties.

Lemma findSegment_finds_the_segment_witness :
  let c := Examples.afterQuery Examples.threeKeyFrames (fl 3) true false in
  reachable c /\ smallStore c /\ strictlyIncreasing (keyframes c)
  /\ segmentsCached c = true
  /\ nth_error (keyframes c) 0 = Some Examples.kfA
  /\ nth_error (keyframes c) 1 = Some Examples.kfB
  /\ time Examples.kfA < fl 1 /\ fl 1 < time Examples.kfB
  /\ findSegment c (fl 1) = Ok 0%Z.
Proof.
  intros c.
  assert (Hreach : reachable c)
    by (apply reachable_afterQuery, reachable_threeKeyFrames).
  assert (Hsmall : smallStore c) by (unfold smallStore; now vm_compute).
  assert (Hinc : strictlyIncreasing (keyframes c)).
  { unfold c. rewrite afterQuery_keyframes. exact threeKeyFrames_increasing. }
  assert (Hcached : segmentsCached c = true) by (vm_compute; reflexivity).
  assert (Ha : nth_error (keyframes c) 0 = Some Examples.kfA).
  { unfold c. rewrite afterQuery_keyframes. reflexivity. }
  assert (Hb : nth_error (keyframes c) 1 = Some Examples.kfB).
  { unfold c. rewrite afterQuery_keyframes. reflexivity. }
  assert (Hlo : time Examples.kfA < fl 1)
    by (apply Qcltb_lt; vm_compute; reflexivity).
  assert (Hhi : fl 1 < time Examples.kfB)
    by (apply Qcltb_lt; vm_compute; reflexivity).
  repeat (split; [assumption|]).
  exact (findSegment_finds_the_segment c (fl 1) 0 Examples.kfA Examples.kfB
           Hreach Hsmall Hinc Hcached Ha Hb Hlo Hhi).
Defined.

Lemma segment_cache_is_coherent_witness :
  let c := Examples.afterQuery Examples.threeKeyFrames (fl 3) true false in
  reachable c /\ smallStore c
  /\ (segmentsCached c = true ->
      buildSegments (keyframes c) = Ok (segments c)
      /\ List.length (segments c) = (List.length (keyframes c) - 1)%nat)
  /\ (0 <= lastSegment c
      <= Z.max 0 (Z.of_nat (List.length (keyframes c)) - 2))%Z.
Proof.
  intros c.
  assert (Hreach : reachable c)
    by (apply reachable_afterQuery, reachable_threeKeyFrames).
  assert (Hsmall : smallStore c) by (unfold smallStore; now vm_compute).
  repeat (split; [assumption|]).
  exact (segment_cache_is_coherent c Hreach Hsmall).
Defined.

Lemma segment_cache_is_transparent_witness :
  let c := Examples.afterQuery Examples.threeKeyFrames (fl 3) true false in
  reachable c /\ smallStore c
  /\ valueOnly (getTransformationMatrix c (fl 1) false true)
     = valueOnly (getTransformationMatrix (markStale c) (fl 1) false true).
Proof.
  intros c.
  assert (Hreach : reachable c)
    by (apply reachable_afterQuery, reachable_threeKeyFrames).
  assert (Hsmall : smallStore c) by (unfold smallStore; now vm_compute).
  repeat (split; [assumption|]).
  exact (segment_cache_is_transparent c (fl 1) false true Hreach Hsmall).
Defined.

(** ** Queries, further *)

Section QueryProperties.

Context {G : Glm}.

(** In every state the public methods lead to, a query returns. *)
Lemma query_returns (c : Controller) (t : Qc) (useQuat useBSplines : bool) :
  reachable c -> smallStore c ->
  exists (b : Branch) (m : mat4) (c' : Controller),
    getTransformationMatrix_traced c t useQuat useBSplines = Ok (b, m, c').
Proof.
  intros Hreach Hsmall.
  pose proof (reachable_wellFormed c Hreach) as Hwf.
  destruct (Nat.le_gt_cases 2 (List.length (keyframes c))) as [Hlen | Hlen].
  - destruct (cacheHit c t) eqn:Hhit.
    + unfold getTransformationMatrix_traced.
      destruct (keyframes c); [cbn in Hlen; lia|]. rewrite Hhit.
      eexists _, _, _. reflexivity.
    + destruct (query_in_segment c t Hwf Hsmall Hlen Hhit)
        as (segs & i & seg & _ & _ & _ & _ & Hquery).
      eexists _, _, _. apply Hquery.
  - unfold getTransformationMatrix_traced.
    destruct (keyframes c) as [|kf0 [|kf1 rest]].
    + eexists _, _, _. reflexivity.
    + destruct (cacheHit c t); eexists _, _, _; reflexivity.
    + cbn in Hlen. lia.
Qed.

(** X9.  In every state the public methods lead to, a query returns: no
    index is out of bounds and no loop runs out of its bound.  It leaves
    the keyframes of the store as they were, and the state it leaves is
    again one the public methods lead to. *)
Theorem query_returns_and_keeps_the_store (c : Controller) (t : Qc)
  (useQuat useBSplines : bool) :
  reachable c -> smallStore c ->
  exists (m : mat4) (c' : Controller),
    getTransformationMatrix c t useQuat useBSplines = Ok (m, c')
    /\ keyframes c' = keyframes c
    /\ reachable c' /\ smallStore c'.
Proof.
  intros Hreach Hsmall.
  destruct (query_returns c t useQuat useBSplines Hreach Hsmall)
    as (b & m & c' & Htraced).
  pose proof (getTransformationMatrix_of_traced _ _ _ _ _ _ _ Htraced) as Hq.
  pose proof (query_keeps_keyframes _ _ _ _ _ _ _ Htraced) as Hkfs.
  exists m, c'. split; [assumption|]. split; [assumption|]. split.
  - apply (reachable_run c c' (OpGetTransformationMatrix t useQuat useBSplines)
             Hreach).
    cbn [run]. rewrite Hq. reflexivity.
  - unfold smallStore in *. rewrite Hkfs. assumption.
Qed.

(** X10.  A query at a time that is not negative is remembered: whatever
    the state, when a query at the time [t] returns, the state it leaves
    answers every further query at [t] with the same matrix and without
    changing again, whatever the orientation mode and the spline family of
    the further query. *)
Theorem repeated_query_is_stable (c c' : Controller) (t : Qc) (m : mat4)
  (useQuat useBSplines : bool) :
  0 <= t ->
  getTransformationMatrix c t useQuat useBSplines = Ok (m, c') ->
  forall useQuat' useBSplines' : bool,
    getTransformationMatrix c' t useQuat' useBSplines' = Ok (m, c').
Proof.
  intros Ht Hq useQuat' useBSplines'.
  assert (Hself : forall c0 : Controller, cacheHit (remember c0 t m) t = true).
  { intros c0. unfold cacheHit. cbn [remember lastTime].
    apply andb_true_iff. split.
    - apply Qcltb_lt. replace (t - t) with 0 by qc_ring.
      apply Qcltb_lt. reflexivity.
    - apply Qcleb_le. exact Ht. }
  unfold getTransformationMatrix in Hq.
  destruct (getTransformationMatrix_traced c t useQuat useBSplines)
    as [[[b m0] c0]|] eqn:Htraced; [|discriminate].
  cbn in Hq. injection Hq as -> ->.
  pose proof (query_keeps_keyframes _ _ _ _ _ _ _ Htraced) as Hkfs.
  unfold getTransformationMatrix, getTransformationMatrix_traced in *.
  rewrite Hkfs.
  destruct (keyframes c) as [|kf0 rest].
  { injection Htraced as _ <- <-. reflexivity. }
  destruct (cacheHit c t) eqn:Hhit.
  { injection Htraced as _ <- <-. rewrite Hhit. reflexivity. }
  assert (Hdone : exists c0 : Controller,
             c' = remember c0 t m).
  { destruct rest as [|kf1 rest].
    - injection Htraced as _ <- <-. eexists. reflexivity.
    - destruct (precomputeSegments c) as [c1|]; [|discriminate].
      cbn [bind] in Htraced.
      destruct (findSegment c1 t) as [j|]; [|discriminate].
      cbn [bind] in Htraced.
      destruct (_ <=? j)%Z.
      + destruct (at_index _ _) as [lastKF|]; [|discriminate].
        cbn [bind] in Htraced. injection Htraced as _ <- <-.
        eexists. reflexivity.
      + destruct (at_index _ _) as [seg|]; [|discriminate].
        cbn [bind] in Htraced. injection Htraced as _ <- <-.
        eexists. reflexivity. }
  destruct Hdone as [c0 ->]. rewrite Hself. reflexivity.
Qed.

(** X11.  In a store whose keyframe times increase strictly, no keyframe
    lies after the total time that [getTotalTime] reports. *)
Theorem total_time_bounds_keyframes (c : Controller) (kf : KeyFrame) :
  strictlyIncreasing (keyframes c) ->
  In kf (keyframes c) ->
  time kf <= getTotalTime c.
Proof.
  intros Hinc Hin. unfold getTotalTime.
  destruct (In_nth_error _ _ Hin) as [i Hi].
  assert (Hlt : (i < List.length (keyframes c))%nat).
  { apply nth_error_Some. congruence. }
  destruct (nth_error_in_range (keyframes c) (List.length (keyframes c) - 1))
    as [lastKF Hlast]; [lia|].
  rewrite Hlast.
  destruct (Nat.eq_dec i (List.length (keyframes c) - 1)) as [-> | Hne].
  - assert (kf = lastKF) by congruence. subst. apply Qcle_refl.
  - apply Qclt_le_weak. apply (Hinc i _ kf lastKF Hi Hlast). lia.
Qed.

(** X12.  In a store whose keyframe times increase strictly, the transform
    has no jump at a keyframe in quaternion mode and under the Catmull-Rom
    family: at the time where a segment ends and the next one starts, both
    segments give the same matrix, so the answer does not depend on which of
    the two the search returns. *)
Theorem transform_continuous_at_keyframes {L : GlmLaws G} (c : Controller)
  (i : nat) (a b : SegmentData) (useQuat useBSplines : bool) :
  reachable c -> smallStore c -> strictlyIncreasing (keyframes c) ->
  segmentsCached c = true ->
  nth_error (segments c) i = Some a ->
  nth_error (segments c) (S i) = Some b ->
  useQuat = true \/ useBSplines = false ->
  segmentTransform useQuat useBSplines a (endTime a)
  = segmentTransform useQuat useBSplines b (endTime a).
Proof.
  intros Hreach Hsmall Hinc Hcached Ha Hb Hmode.
  destruct (adjacent_segments c i a b Hreach Hsmall Hcached Ha Hb)
    as (H0 & H1 & H2 & Hstart & Hq & k1 & k2 & He1a & He1b & He2a).
  destruct (reachable_wellFormed c Hreach) as [_ Hbuilt].
  specialize (Hbuilt Hcached).
  destruct (segment_at _ _ Hsmall Hbuilt _ _ Ha) as [Hofa _].
  destruct (segmentOf_bounds _ Hinc _ _ Hofa)
    as (_ & _ & _ & _ & _ & _ & Hdur & Hpos & _).
  unfold segmentTransform.
  rewrite (segmentParameter_after a (endTime a) Hdur Hpos (Qcle_refl _)).
  rewrite (segmentParameter_before b (endTime a))
    by (rewrite Hstart; apply Qcle_refl).
  f_equal.
  - f_equal. unfold segmentPosition, fastBSplinePosition,
      fastCatmullRomPosition.
    rewrite H0, H1, H2.
    destruct useBSplines; apply vec3_ext; cbn; apply Qc_is_canon; qc2q; field.
  - unfold segmentRotation. destruct useQuat.
    + rewrite slerp_end, slerp_start. congruence.
    + destruct Hmode as [Hmode | Hmode]; [discriminate|]. subst useBSplines.
      rewrite fastCatmullRomEuler_1, fastCatmullRomEuler_0, He1b.
      apply eulerRotation_full_turns. intros ax.
      destruct (normalizeAngles_spec (eulerAngles k2) (eulerAngles k1))
        as (res & Hres & Hturns).
      assert (res = e2 a) by congruence. subst res.
      destruct (Hturns ax) as (k & Hk & _). exists k. exact Hk.
Qed.

End QueryProperties.

Lemma query_returns_and_keeps_the_store_witness :
  let c := Examples.threeKeyFrames in
  reachable c /\ smallStore c
  /\ exists (m : mat4) (c' : Controller),
       getTransformationMatrix c (fl 3) false true = Ok (m, c')
       /\ keyframes c' = keyframes c
       /\ reachable c' /\ smallStore c'.
Proof.
  intros c.
  split; [exact reachable_threeKeyFrames|].
  split; [exact threeKeyFrames_small|].
  exact (query_returns_and_keeps_the_store c (fl 3) false true
           reachable_threeKeyFrames threeKeyFrames_small).
Defined.

Lemma repeated_query_is_stable_witness :
  let c := Examples.threeKeyFrames in
  0 <= fl 3
  /\ exists (m : mat4) (c' : Controller),
       getTransformationMatrix c (fl 3) true false = Ok (m, c')
       /\ forall useQuat' useBSplines' : bool,
            getTransformationMatrix c' (fl 3) useQuat' useBSplines'
            = Ok (m, c').
Proof.
  intros c.
  assert (Ht : 0 <= fl 3) by (apply Qcleb_le; vm_compute; reflexivity).
  split; [exact Ht|].
  destruct (query_returns c (fl 3) true false reachable_threeKeyFrames
              threeKeyFrames_small) as (b & m & c' & Htraced).
  pose proof (getTransformationMatrix_of_traced _ _ _ _ _ _ _ Htraced) as Hq.
  exists m, c'. split; [exact Hq|].
  exact (repeated_query_is_stable c c' (fl 3) m true false Ht Hq).
Defined.

Lemma total_time_bounds_keyframes_witness :
  let c := Examples.threeKeyFrames in
  strictlyIncreasing (keyframes c)
  /\ In Examples.kfB (keyframes c)
  /\ time Examples.kfB <= getTotalTime c.
Proof.
  intros c.
  assert (Hin : In Examples.kfB (keyframes c)) by (right; left; reflexivity).
  split; [exact threeKeyFrames_increasing|]. split; [exact Hin|].
  exact (total_time_bounds_keyframes c Examples.kfB
           threeKeyFrames_increasing Hin).
Defined.

Lemma transform_continuous_at_keyframes_witness :
  let c := Examples.afterQuery Examples.threeKeyFrames (fl 3) true false in
  reachable c /\ smallStore c /\ strictlyIncreasing (keyframes c)
  /\ segmentsCached c = true
  /\ exists a b : SegmentData,
       nth_error (segments c) 0 = Some a
       /\ nth_error (segments c) 1 = Some b
       /\ (false = true \/ false = false)
       /\ segmentTransform false false a (endTime a)
          = segmentTransform false false b (endTime a).
Proof.
  intros c.
  assert (Hreach : reachable c)
    by (apply reachable_afterQuery, reachable_threeKeyFrames).
  assert (Hsmall : smallStore c) by (unfold smallStore; now vm_compute).
  assert (Hinc : strictlyIncreasing (keyframes c)).
  { unfold c. rewrite afterQuery_keyframes. exact threeKeyFrames_increasing. }
  assert (Hcached : segmentsCached c = true) by (vm_compute; reflexivity).
  assert (Hlen : List.length (segments c) = 2%nat) by (vm_compute; reflexivity).
  repeat (split; [assumption|]).
  destruct (nth_error_in_range (segments c) 0) as [a Ha]; [lia|].
  destruct (nth_error_in_range (segments c) 1) as [b Hb]; [lia|].
  exists a, b. split; [assumption|]. split; [assumption|].
  split; [right; reflexivity|].
  exact (transform_continuous_at_keyframes c 0 a b false false
           Hreach Hsmall Hinc Hcached Ha Hb (or_intror eq_refl)).
Defined.

(** ** The segments at the two ends of the path *)

Section EndSegments.

Context {G : Glm}.

(** X13.  The segment array repeats the end keyframes: the control data
    before the first segment are those of the first keyframe itself, and
    the control data after the last segment are those of the last keyframe,
    for the positions and for the Euler angles. *)
Theorem end_segments_repeat_the_end_keyframes (c : Controller) :
  reachable c -> smallStore c -> segmentsCached c = true ->
  (forall s : SegmentData,
     nth_error (segments c) 0 = Some s -> p0 s = p1 s /\ e0 s = e1 s)
  /\ (forall s : SegmentData,
        nth_error (segments c) (List.length (segments c) - 1) = Some s ->
        p3 s = p2 s /\ e3 s = e2 s).
Proof.
  intros Hreach Hsmall Hcached.
  destruct (reachable_wellFormed c Hreach) as [_ Hbuilt].
  specialize (Hbuilt Hcached).
  destruct (buildSegments_Ok _ _ Hsmall Hbuilt) as [Hm _].
  split; intros s Hs;
    destruct (segment_at _ _ Hsmall Hbuilt _ _ Hs) as [Hof Hlen];
    destruct Hof as (k0 & k1 & k2 & k3 & K0 & K1 & K2 & K3 & P0 & P1 & P2 & P3
                     & E0 & E1 & E2 & E3 & _).
  - change (0 - 1)%nat with 0%nat in K0.
    assert (k0 = k1) by congruence. subst k0.
    split; [congruence|].
    rewrite normalizeAngles_fixed in E0.
    + congruence.
    + intros i. replace (vec3_get (eulerAngles k1) i
                         - vec3_get (eulerAngles k1) i) with 0 by qc_ring.
      split; apply Qcleb_le; reflexivity.
  - replace (Nat.min (List.length (segments c) - 1 + 2)
               (List.length (keyframes c) - 1))
      with (List.length (segments c) - 1 + 1)%nat in K3 by lia.
    assert (k3 = k2) by congruence. subst k3.
    split; [congruence|].
    destruct (normalizeAngles_spec (eulerAngles k2) (eulerAngles k1))
      as (r2 & Hr2 & Hturns2).
    destruct (normalizeAngles_spec (eulerAngles k2) (e2 s))
      as (r3 & Hr3 & Hturns3).
    assert (r2 = e2 s) by congruence. assert (r3 = e3 s) by congruence.
    subst r2 r3.
    assert (Hax : forall i : axis, vec3_get (e3 s) i = vec3_get (e2 s) i).
    { intros i.
      destruct (Hturns2 i) as (k' & Hk' & _).
      destruct (Hturns3 i) as (m & Hm3 & Hlo & Hhi).
      assert (m = k'); [|congruence].
      apply (turn_unique (- (fl 360 * fl (inject_Z k'))) m k').
      - replace (- (fl 360 * fl (inject_Z k')) + fl 360 * fl (inject_Z k'))
          with 0 by qc_ring.
        apply Qcltb_lt. reflexivity.
      - replace (- (fl 360 * fl (inject_Z k')) + fl 360 * fl (inject_Z k'))
          with 0 by qc_ring.
        apply Qcltb_lt. reflexivity.
      - replace (- (fl 360 * fl (inject_Z k')) + fl 360 * fl (inject_Z m))
          with (vec3_get (e3 s) i - vec3_get (e2 s) i)
          by (rewrite Hm3, Hk'; qc_ring).
        exact Hlo.
      - replace (- (fl 360 * fl (inject_Z k')) + fl 360 * fl (inject_Z m))
          with (vec3_get (e3 s) i - vec3_get (e2 s) i)
          by (rewrite Hm3, Hk'; qc_ring).
        exact Hhi. }
    apply vec3_ext; [apply (Hax AxisX) | apply (Hax AxisY) | apply (Hax AxisZ)].
Qed.

End EndSegments.

Lemma end_segments_repeat_the_end_keyframes_witness :
  let c := Examples.afterQuery Examples.threeKeyFrames (fl 3) true false in
  reachable c /\ smallStore c /\ segmentsCached c = true
  /\ (forall s : SegmentData,
        nth_error (segments c) 0 = Some s -> p0 s = p1 s /\ e0 s = e1 s)
  /\ (forall s : SegmentData,
        nth_error (segments c) (List.length (segments c) - 1) = Some s ->
        p3 s = p2 s /\ e3 s = e2 s).
Proof.
  intros c.
  assert (Hreach : reachable c)
    by (apply reachable_afterQuery, reachable_threeKeyFrames).
  assert (Hsmall : smallStore c) by (unfold smallStore; now vm_compute).
  assert (Hcached : segmentsCached c = true) by (vm_compute; reflexivity).
  repeat (split; [assumption|]).
  exact (end_segments_repeat_the_end_keyframes c Hreach Hsmall Hcached).
Defined.

(** ** The parser and the callers, further *)

Section ParserFurther.

Context {G : Glm}.

Variable stof : string -> result Qc.
Variable indeterminate : vec3.

Lemma axis_of_index_inj (i j : nat) (ax : axis) :
  axis_of_index i = Some ax -> axis_of_index j = Some ax -> i = j.
Proof.
  destruct i as [|[|[|i]]]; destruct j as [|[|[|j]]]; cbn;
    congruence.
Qed.

Lemma parseComponents_untouched (coords : list string) :
  forall (index : nat) (v v' : vec3) (k : nat) (ax : axis),
    parseComponents stof coords index v = Ok v' ->
    axis_of_index k = Some ax ->
    (k < index \/ index + List.length coords <= k)%nat ->
    vec3_get v' ax = vec3_get v ax.
Proof.
  induction coords as [|coord rest IH]; intros index v v' k ax Hrun Hax Hk;
    cbn [parseComponents] in Hrun.
  - congruence.
  - destruct (axis_of_index index) as [ax0|] eqn:E0; [|congruence].
    destruct (stof coord) as [x|]; [|discriminate]. cbn [bind] in Hrun.
    rewrite (IH (S index) _ v' k ax Hrun Hax) by (cbn in Hk; lia).
    apply vec3_get_set_other. intros ->.
    pose proof (axis_of_index_inj _ _ _ E0 Hax). cbn in Hk. lia.
Qed.

Lemma parseComponents_firstn (coords : list string) :
  forall (index : nat) (v : vec3),
    parseComponents stof coords index v
    = parseComponents stof (firstn (3 - index) coords) index v.
Proof.
  induction coords as [|coord rest IH]; intros index v.
  - rewrite firstn_nil. reflexivity.
  - destruct index as [|[|[|index]]]; cbn [Nat.sub firstn parseComponents
                                            axis_of_index];
      try reflexivity;
      (destruct (stof coord) as [x|]; [|reflexivity]); cbn [bind]; apply IH.
Qed.

(** X14.  A coordinate list is read up to its third number: what follows
    the third comma is never handed to [std::stof], so it cannot raise; and
    when fewer than three numbers are given, the components that are left
    are those of the vector before the call, which the caller declares
    without a value. *)
Theorem parseComponents_reads_three (coords : list string) (v : vec3) :
  parseComponents stof coords 0 v
  = parseComponents stof (firstn 3 coords) 0 v
  /\ forall (v' : vec3) (k : nat) (ax : axis),
       parseComponents stof coords 0 v = Ok v' ->
       axis_of_index k = Some ax ->
       (List.length coords <= k)%nat ->
       vec3_get v' ax = vec3_get v ax.
Proof.
  split; [apply (parseComponents_firstn coords 0)|].
  intros v' k ax Hrun Hax Hk.
  apply (parseComponents_untouched coords 0 v v' k ax Hrun Hax). lia.
Qed.

Lemma parseGroup_diagnostics (st st' : ParserState) (g : string) :
  parseGroup stof indeterminate st g = Ok st' ->
  diagnostics st'
  = diagnostics st
    ++ (if reported g then [("Invalid keyframe format: " ++ g)%string]
        else []).
Proof.
  unfold parseGroup, reported, hasColon.
  destruct (String.length g =? 0)%nat.
  { intros [= <-]. cbn. now rewrite app_nil_r. }
  destruct (String.index 0 ":" g) as [colonPos|].
  - destruct (parseComponents stof _ 0 indeterminate) as [pos|];
      [|discriminate].
    cbn [bind].
    destruct (parseComponents stof _ 0 indeterminate) as [euler|];
      [|discriminate].
    cbn [bind]. intros [= <-]. cbn. now rewrite app_nil_r.
  - intros [= <-]. reflexivity.
Qed.

Lemma parseGroups_diagnostics (groups : list string) :
  forall st st' : ParserState,
    foldM (parseGroup stof indeterminate) groups st = Ok st' ->
    diagnostics st'
    = diagnostics st
      ++ map (fun g => ("Invalid keyframe format: " ++ g)%string)
           (filter reported groups).
Proof.
  induction groups as [|g groups IH]; intros st st' Hrun; cbn [foldM] in Hrun.
  - injection Hrun as <-. cbn. now rewrite app_nil_r.
  - destruct (parseGroup stof indeterminate st g) as [st1|] eqn:E1;
      [|discriminate].
    cbn [bind] in Hrun. rewrite (IH _ _ Hrun).
    rewrite (parseGroup_diagnostics _ _ _ E1). cbn [filter].
    destruct (reported g); cbn [map]; rewrite <- app_assoc; reflexivity.
Qed.

(** X15.  When the parser returns, it has written one line to the error
    stream for each group that is not empty and holds no colon, in the order
    of the groups, and nothing else: empty groups are skipped in silence,
    and a rejected specification is reported by the return value alone. *)
Theorem parser_reports_each_malformed_group (c : Controller)
  (keyframeStr : string) (out : ParseOutcome) :
  parseKeyFramesFromString stof indeterminate keyframeStr (Some c) = Ok out ->
  errorOutput out
  = map (fun g => ("Invalid keyframe format: " ++ g)%string)
      (filter reported (groupsOf keyframeStr)).
Proof.
  unfold parseKeyFramesFromString.
  destruct (String.length keyframeStr =? 0)%nat eqn:Elen.
  { destruct keyframeStr; [|discriminate Elen]. intros [= <-]. reflexivity. }
  destruct (foldM _ _ _) as [st|] eqn:Erun; [|discriminate].
  cbn [bind]. pose proof (parseGroups_diagnostics _ _ _ Erun) as Hd.
  cbn [diagnostics app] in Hd. fold (groupsOf keyframeStr) in Hd.
  destruct (parsedFrames st); intros [= <-]; exact Hd.
Qed.

End ParserFurther.

Section CallerProperties.

Context {G : Glm}.

Variable stof : string -> result Qc.
Variable indeterminate : vec3.

(** What the parser leaves of the controller. *)
Lemma parse_outcome (c : Controller) (keyframeStr : string)
  (out : ParseOutcome) :
  parseKeyFramesFromString stof indeterminate keyframeStr (Some c) = Ok out ->
  (returned out = false /\ controllerAfter out = Some c)
  \/ (returned out = true
      /\ exists frames : list KeyFrame,
           frames <> []
           /\ controllerAfter out
              = Some (addMultipleKeyFrames (clearKeyFrames c) frames)
           /\ forall (k : nat) (kf : KeyFrame),
                nth_error frames k = Some kf ->
                time kf = timeStep * fl (inject_Z (Z.of_nat k))).
Proof.
  unfold parseKeyFramesFromString.
  destruct (String.length keyframeStr =? 0)%nat.
  { intros [= <-]. left. split; reflexivity. }
  destruct (foldM _ _ _) as [st|] eqn:Erun; [|discriminate].
  cbn [bind].
  destruct (parseGroups_frames stof indeterminate _ _ _ Erun)
    as (new & Hnew & _ & _ & Htimes).
  cbn [parsedFrames nextTime app] in Hnew, Htimes.
  destruct (parsedFrames st) as [|kf0 rest] eqn:Eframes; intros [= <-].
  - left. split; reflexivity.
  - right. split; [reflexivity|]. exists (kf0 :: rest).
    split; [discriminate|]. split; [reflexivity|].
    intros k kf Hk. rewrite Hnew in Hk. rewrite (Htimes k kf Hk).
    qc_ring.
Qed.

Lemma defaultFrames_times (k : nat) (kf : KeyFrame) :
  nth_error defaultFrames k = Some kf ->
  time kf = timeStep * fl (inject_Z (Z.of_nat k)).
Proof.
  unfold defaultFrames.
  destruct k as [|[|[|[|[|[|k]]]]]]; cbn [nth_error];
    try (intros [= <-]; cbn [KeyFrame_of_euler time];
         apply Qc_is_canon; reflexivity).
  destruct k; discriminate.
Qed.

(** Keyframes at the multiples of the step are in increasing order, and
    the last of them carries the total time. *)
Lemma regular_times (c : Controller) :
  (forall (k : nat) (kf : KeyFrame),
     nth_error (keyframes c) k = Some kf ->
     time kf = timeStep * fl (inject_Z (Z.of_nat k))) ->
  strictlyIncreasing (keyframes c)
  /\ (keyframes c <> [] ->
      getTotalTime c
      = timeStep * fl (inject_Z (Z.of_nat (getKeyFrameCount c - 1))))
  /\ 0 <= getTotalTime c.
Proof.
  intros Htimes.
  assert (Hpos : forall n : nat, 0 <= timeStep * fl (inject_Z (Z.of_nat n))).
  { intros n. unfold timeStep. qc2q.
    assert (0 <= inject_Z (Z.of_nat n))%Q
      by (change 0%Q with (inject_Z 0); rewrite <- Zle_Qle; lia).
    lra. }
  split; [|split].
  - intros i j a b Ha Hb Hij.
    rewrite (Htimes i a Ha), (Htimes j b Hb). unfold timeStep. qc2q.
    assert (inject_Z (Z.of_nat i) < inject_Z (Z.of_nat j))%Q
      by (rewrite <- Zlt_Qlt; lia).
    lra.
  - intros Hne. unfold getTotalTime, getKeyFrameCount.
    destruct (nth_error_in_range (keyframes c)
                (List.length (keyframes c) - 1)) as [kf Hkf].
    { destruct (keyframes c); [congruence | cbn; lia]. }
    rewrite Hkf. apply (Htimes _ _ Hkf).
  - unfold getTotalTime.
    destruct (nth_error (keyframes c) (List.length (keyframes c) - 1))
      as [kf|] eqn:Hkf; [|apply Qcle_refl].
    rewrite (Htimes _ _ Hkf). apply Hpos.
Qed.

(** The controller that [setupMotionSystem] leaves holds either the parsed
    keyframes or the default ones, at the multiples of the step. *)
Lemma setupMotionSystem_frames (config : ProgramConfig)
  (r : option Controller) :
  setupMotionSystem stof indeterminate config = Ok r ->
  exists (c : Controller) (frames : list KeyFrame),
    r = Some c /\ reachable c /\ keyframes c = frames /\ frames <> []
    /\ (keyframesProvided config = false -> frames = defaultFrames)
    /\ forall (k : nat) (kf : KeyFrame),
         nth_error frames k = Some kf ->
         time kf = timeStep * fl (inject_Z (Z.of_nat k)).
Proof.
  assert (Hdefault :
            exists (c : Controller) (frames : list KeyFrame),
              setupDefaultKeyFrames (Some newController) = Some c
              /\ reachable c /\ keyframes c = frames /\ frames <> []
              /\ frames = defaultFrames
              /\ forall (k : nat) (kf : KeyFrame),
                   nth_error frames k = Some kf ->
                   time kf = timeStep * fl (inject_Z (Z.of_nat k))).
  { exists (addMultipleKeyFrames newController defaultFrames), defaultFrames.
    split; [reflexivity|]. split.
    { apply (reachable_run newController _
               (OpAddMultipleKeyFrames defaultFrames) reachable_new).
      reflexivity. }
    split; [reflexivity|]. split; [discriminate|]. split; [reflexivity|].
    apply defaultFrames_times. }
  unfold setupMotionSystem.
  destruct (keyframesProvided config).
  - destruct (parseKeyFramesFromString _ _ _ _) as [out|] eqn:Eparse;
      [|discriminate].
    cbn [bind].
    destruct (parse_outcome _ _ _ Eparse)
      as [[Hret Hafter] | (Hret & frames & Hne & Hafter & Htimes)];
      rewrite Hret, Hafter; cbn [negb]; intros [= <-].
    + destruct Hdefault as (c & frames & Hc & Hreach & Hkfs & Hne & _ & Ht).
      exists c, frames. repeat (split; [assumption|]).
      split; [discriminate | assumption].
    + exists (addMultipleKeyFrames (clearKeyFrames newController) frames),
        frames.
      split; [reflexivity|]. split.
      { apply (reachable_run (clearKeyFrames newController) _
                 (OpAddMultipleKeyFrames frames)); [|reflexivity].
        apply (reachable_run newController _ OpClearKeyFrames reachable_new).
        reflexivity. }
      split; [apply addMultipleKeyFrames_keyframes|].
      split; [assumption|]. split; [discriminate | assumption].
  - intros [= <-].
    destruct Hdefault as (c & frames & Hc & Hreach & Hkfs & Hne & Hd & Ht).
    exists c, frames. repeat (split; [assumption|]).
    split; [intros _; assumption | assumption].
Qed.

(** X16.  Whatever the command line asked for, when [setupMotionSystem]
    returns the controller exists, is in a state the public methods lead to
    and holds at least one keyframe; the k-th keyframe lies at k times the
    step, so the times increase strictly and the animation lasts the step
    times the number of keyframes less one.  Without the option -kf the
    store holds the six default keyframes. *)
Theorem setupMotionSystem_leaves_a_regular_store (config : ProgramConfig)
  (r : option Controller) :
  setupMotionSystem stof indeterminate config = Ok r ->
  exists c : Controller,
    r = Some c /\ reachable c
    /\ (1 <= getKeyFrameCount c)%nat
    /\ (forall (k : nat) (kf : KeyFrame),
          nth_error (keyframes c) k = Some kf ->
          time kf = timeStep * fl (inject_Z (Z.of_nat k)))
    /\ strictlyIncreasing (keyframes c)
    /\ getTotalTime c
       = timeStep * fl (inject_Z (Z.of_nat (getKeyFrameCount c - 1)))
    /\ (keyframesProvided config = false -> keyframes c = defaultFrames).
Proof.
  intros Hsetup.
  destruct (setupMotionSystem_frames config r Hsetup)
    as (c & frames & Hr & Hreach & Hkfs & Hne & Hdefault & Htimes).
  subst frames.
  destruct (regular_times c Htimes) as (Hinc & Htotal & _).
  exists c. split; [assumption|]. split; [assumption|]. split.
  { unfold getKeyFrameCount. destruct (keyframes c); [congruence | cbn; lia]. }
  split; [assumption|]. split; [assumption|].
  split; [exact (Htotal Hne) | assumption].
Qed.

(** X17.  The animation time of the main loop stays within the animation:
    with the controller that [setupMotionSystem] leaves, a time that is not
    negative, advanced by a frame time that is not negative, is again not
    negative, and it is never beyond the total time. *)
Theorem animation_time_stays_in_range (config : ProgramConfig)
  (c : Controller) (currentTime deltaTime : Qc) :
  setupMotionSystem stof indeterminate config = Ok (Some c) ->
  0 <= currentTime -> 0 <= deltaTime ->
  0 <= advanceTime (Some c) currentTime deltaTime
  /\ advanceTime (Some c) currentTime deltaTime <= getTotalTime c.
Proof.
  intros Hsetup Ht Hdt.
  destruct (setupMotionSystem_frames config _ Hsetup)
    as (c0 & frames & Hr & _ & Hkfs & _ & _ & Htimes).
  injection Hr as <-. subst frames.
  destruct (regular_times c Htimes) as (_ & _ & Htotal).
  unfold advanceTime.
  destruct (getTotalTime c <? currentTime + deltaTime * fl 0.5) eqn:E;
    order_hyps.
  - split; [apply Qcleb_le; reflexivity | exact Htotal].
  - split; [|exact E]. qc2q. nra.
Qed.

End CallerProperties.

(** A specification with a malformed group, an empty group and a group
    that gives one coordinate only. *)
Lemma parse_with_noise {G : Glm} (indeterminate : vec3) (c : Controller) :
  parseKeyFramesFromString stof_decimal indeterminate
    "oops;;1,2,3:0,90,0;4:5" (Some c)
  = Ok (mkParseOutcome true
          (Some (addMultipleKeyFrames (clearKeyFrames c)
                   [KeyFrame_of_euler (mkVec3 (fl 1) (fl 2) (fl 3))
                      (mkVec3 (fl 0) (fl 90) (fl 0)) (fl 0);
                    KeyFrame_of_euler
                      (vec3_set indeterminate AxisX (fl 4))
                      (vec3_set indeterminate AxisX (fl 5)) timeStep]))
          ["Invalid keyframe format: oops"%string]).
Proof.
  unfold parseKeyFramesFromString.
  change (String.length "oops;;1,2,3:0,90,0;4:5" =? 0)%nat with false.
  cbv iota.
  destruct (foldM _ _ _) as [st|e] eqn:E; vm_compute in E;
    [|discriminate E].
  injection E as <-. cbn [bind parsedFrames diagnostics].
  unfold addMultipleKeyFrames, clearKeyFrames, KeyFrame_of_euler, radians3,
    timeStep, vec3_set.
  cbn [vx vy vz keyframes app fold_left].
  same_up_to_rationals.
Qed.

Lemma setup_with_noise {G : Glm} (indeterminate : vec3) :
  setupMotionSystem stof_decimal indeterminate
    (setKeyframeString initialConfig "oops;;1,2,3:0,90,0;4:5")
  = Ok (Some (addMultipleKeyFrames (clearKeyFrames newController)
                [KeyFrame_of_euler (mkVec3 (fl 1) (fl 2) (fl 3))
                   (mkVec3 (fl 0) (fl 90) (fl 0)) (fl 0);
                 KeyFrame_of_euler
                   (vec3_set indeterminate AxisX (fl 4))
                   (vec3_set indeterminate AxisX (fl 5)) timeStep])).
Proof.
  unfold setupMotionSystem.
  cbn [keyframesProvided keyframeString setKeyframeString].
  rewrite parse_with_noise. reflexivity.
Qed.

Lemma parser_reports_each_malformed_group_witness :
  exists out : ParseOutcome,
    parseKeyFramesFromString stof_decimal (Examples.vec 0 0 0)
      "oops;;1,2,3:0,90,0;4:5" (Some Examples.oneKeyFrame) = Ok out
    /\ errorOutput out
       = map (fun g => ("Invalid keyframe format: " ++ g)%string)
           (filter reported (groupsOf "oops;;1,2,3:0,90,0;4:5")).
Proof.
  eexists. split; [apply parse_with_noise|].
  apply (parser_reports_each_malformed_group stof_decimal
           (Examples.vec 0 0 0) Examples.oneKeyFrame
           "oops;;1,2,3:0,90,0;4:5").
  apply parse_with_noise.
Defined.

Lemma setupMotionSystem_leaves_a_regular_store_witness :
  let config := setKeyframeString initialConfig "oops;;1,2,3:0,90,0;4:5" in
  exists r : option (@Controller Rational.glm),
    setupMotionSystem stof_decimal (Examples.vec 0 0 0) config = Ok r
    /\ exists c : Controller,
         r = Some c /\ reachable c
         /\ (1 <= getKeyFrameCount c)%nat
         /\ (forall (k : nat) (kf : KeyFrame),
               nth_error (keyframes c) k = Some kf ->
               time kf = timeStep * fl (inject_Z (Z.of_nat k)))
         /\ strictlyIncreasing (keyframes c)
         /\ getTotalTime c
            = timeStep * fl (inject_Z (Z.of_nat (getKeyFrameCount c - 1)))
         /\ (keyframesProvided config = false ->
             keyframes c = defaultFrames).
Proof.
  intros config. eexists. split; [apply setup_with_noise|].
  apply (setupMotionSystem_leaves_a_regular_store stof_decimal
           (Examples.vec 0 0 0) config).
  apply setup_with_noise.
Defined.

Lemma animation_time_stays_in_range_witness :
  let config := setKeyframeString initialConfig "oops;;1,2,3:0,90,0;4:5" in
  exists c : @Controller Rational.glm,
    setupMotionSystem stof_decimal (Examples.vec 0 0 0) config = Ok (Some c)
    /\ 0 <= fl 1.99 /\ 0 <= fl 0.04
    /\ 0 <= advanceTime (Some c) (fl 1.99) (fl 0.04)
    /\ advanceTime (Some c) (fl 1.99) (fl 0.04) <= getTotalTime c.
Proof.
  intros config. eexists. split; [apply setup_with_noise|].
  assert (Ht : 0 <= fl 1.99) by (apply Qcleb_le; vm_compute; reflexivity).
  assert (Hdt : 0 <= fl 0.04) by (apply Qcleb_le; vm_compute; reflexivity).
  split; [exact Ht|]. split; [exact Hdt|].
  apply (animation_time_stays_in_range stof_decimal (Examples.vec 0 0 0)
           config _ (fl 1.99) (fl 0.04)); [apply setup_with_noise | | ];
    assumption.
Defined.

(** ** parseCommandLine *)

Lemma parseArguments_option (flag value : string) (rest : list string)
  (config : ProgramConfig) (f : ProgramConfig -> ProgramConfig) :
  optionEffect flag value = Some f ->
  parseArguments (flag :: value :: rest) config
  = parseArguments rest (f config).
Proof.
  unfold optionEffect. cbn [parseArguments hasNext].
  rewrite !andb_true_r.
  destruct (flag =? "-ot")%string.
  { destruct ((value =? "quat")%string || (value =? "quaternion")%string
              || (value =? "0")%string).
    - intros [= <-]. reflexivity.
    - destruct ((value =? "euler")%string || (value =? "1")%string);
        [|discriminate].
      intros [= <-]. reflexivity. }
  destruct (flag =? "-it")%string.
  { destruct ((value =? "crspline")%string || (value =? "catmullrom")%string
              || (value =? "0")%string).
    - intros [= <-]. reflexivity.
    - destruct ((value =? "bspline")%string || (value =? "1")%string);
        [|discriminate].
      intros [= <-]. reflexivity. }
  destruct (flag =? "-kf")%string; [intros [= <-]; reflexivity|].
  destruct (flag =? "-m")%string; [intros [= <-]; reflexivity|].
  discriminate.
Qed.

Lemma parseArguments_options (options : list (string * string)) :
  forall (config config' : ProgramConfig) (rest : list string),
    applyOptions options config = Some config' ->
    parseArguments (spell options ++ rest) config
    = parseArguments rest config'.
Proof.
  induction options as [|[flag value] options IH];
    intros config config' rest Happly; cbn [applyOptions] in Happly.
  - injection Happly as <-. reflexivity.
  - destruct (optionEffect flag value) as [f|] eqn:Ef; [|discriminate].
    change (spell ((flag, value) :: options) ++ rest)
      with (flag :: value :: (spell options ++ rest)).
    rewrite (parseArguments_option _ _ _ _ _ Ef).
    apply IH, Happly.
Qed.

(** X18.  A command line that spells options the program accepts, each
    followed by its value, is accepted without a message and leaves the
    configuration that the options give when applied from left to right (a
    later option overrides an earlier one).  If -h or --help follows them,
    the help flag is set and what comes after it is not looked at.  If one
    of the four options comes last, without a value, the command line is
    rejected as an unknown argument, and the options before it stay
    applied. *)
Theorem parseCommandLine_applies_options_in_order (program : string)
  (options : list (string * string)) (config config' : ProgramConfig) :
  applyOptions options config = Some config' ->
  parseCommandLine (program :: spell options) config = (true, config', [])
  /\ (forall (help : string) (rest : list string),
        help = "-h"%string \/ help = "--help"%string ->
        parseCommandLine (program :: spell options ++ help :: rest) config
        = (true, setShowHelp config', []))
  /\ (forall flag : string,
        In flag ["-ot"; "-it"; "-kf"; "-m"]%string ->
        parseCommandLine (program :: spell options ++ [flag]) config
        = (false, config', [("Unknown argument: " ++ flag)%string]%list)).
Proof.
  intros Happly. unfold parseCommandLine. cbn [tl].
  split; [|split].
  - rewrite <- (app_nil_r (spell options)).
    rewrite (parseArguments_options _ _ _ _ Happly). reflexivity.
  - intros help rest Hhelp.
    rewrite (parseArguments_options _ _ _ _ Happly).
    destruct Hhelp as [-> | ->]; reflexivity.
  - intros flag Hflag.
    rewrite (parseArguments_options _ _ _ _ Happly).
    destruct Hflag as [<- | [<- | [<- | [<- | []]]]]; reflexivity.
Qed.

Lemma parseArguments_outcome (n : nat) :
  forall (args : list string) (config : ProgramConfig),
    (List.length args <= n)%nat ->
    let r := parseArguments args config in
    ((fst (fst r) = true /\ snd r = [])
     \/ (fst (fst r) = false /\ exists line : string, snd r = [line]%list))
    /\ vertexShaderPath (snd (fst r)) = vertexShaderPath config
    /\ fragmentShaderPath (snd (fst r)) = fragmentShaderPath config.
Proof.
  assert (Hno : forall (config : ProgramConfig) (line : string),
            let r := (false, config, [line]%list) in
            ((fst (fst r) = true /\ snd r = [])
             \/ (fst (fst r) = false
                 /\ exists line : string, snd r = [line]%list))
            /\ vertexShaderPath (snd (fst r)) = vertexShaderPath config
            /\ fragmentShaderPath (snd (fst r)) = fragmentShaderPath config).
  { intros config line. cbn. split; [right; split; eauto|]. split; reflexivity. }
  induction n as [|n IH]; intros args config Hlen.
  - destruct args; [|cbn in Hlen; lia]. cbn. tauto.
  - destruct args as [|arg rest]; [cbn; tauto|].
    cbn [parseArguments].
    destruct rest as [|value rest'].
    + cbn [hasNext]. rewrite !andb_false_r.
      destruct ((arg =? "-h")%string || (arg =? "--help")%string).
      * cbn. tauto.
      * apply Hno.
    + cbn [hasNext]. rewrite !andb_true_r.
      assert (Hrec : forall f : ProgramConfig -> ProgramConfig,
                vertexShaderPath (f config) = vertexShaderPath config ->
                fragmentShaderPath (f config) = fragmentShaderPath config ->
                let r := parseArguments rest' (f config) in
                ((fst (fst r) = true /\ snd r = [])
                 \/ (fst (fst r) = false
                     /\ exists line : string, snd r = [line]%list))
                /\ vertexShaderPath (snd (fst r)) = vertexShaderPath config
                /\ fragmentShaderPath (snd (fst r))
                   = fragmentShaderPath config).
      { intros f Hv Hf. rewrite <- Hv, <- Hf. apply IH. cbn in Hlen. lia. }
      destruct (arg =? "-ot")%string.
      { destruct ((value =? "quat")%string || (value =? "quaternion")%string
                  || (value =? "0")%string).
        - apply (Hrec (fun c => setUseQuaternions c true)); reflexivity.
        - destruct ((value =? "euler")%string || (value =? "1")%string).
          + apply (Hrec (fun c => setUseQuaternions c false)); reflexivity.
          + apply Hno. }
      destruct (arg =? "-it")%string.
      { destruct ((value =? "crspline")%string
                  || (value =? "catmullrom")%string || (value =? "0")%string).
        - apply (Hrec (fun c => setUseBSpline c false)); reflexivity.
        - destruct ((value =? "bspline")%string || (value =? "1")%string).
          + apply (Hrec (fun c => setUseBSpline c true)); reflexivity.
          + apply Hno. }
      destruct (arg =? "-kf")%string.
      { apply (Hrec (fun c => setKeyframeString c value)); reflexivity. }
      destruct (arg =? "-m")%string.
      { apply (Hrec (fun c => setObjFilename c value)); reflexivity. }
      destruct ((arg =? "-h")%string || (arg =? "--help")%string).
      * cbn. tauto.
      * apply Hno.
Qed.

(** X19.  [parseCommandLine] reports each rejection, and only rejections:
    when it returns true it has written nothing to the error stream, when
    it returns false it has written exactly one line.  No command line
    changes the paths of the shaders. *)
Theorem parseCommandLine_reports_each_rejection (argv : list string)
  (config : ProgramConfig) :
  ((fst (fst (parseCommandLine argv config)) = true
    /\ snd (parseCommandLine argv config) = [])
   \/ (fst (fst (parseCommandLine argv config)) = false
       /\ exists line : string,
            snd (parseCommandLine argv config) = [line]%list))
  /\ vertexShaderPath (snd (fst (parseCommandLine argv config)))
     = vertexShaderPath config
  /\ fragmentShaderPath (snd (fst (parseCommandLine argv config)))
     = fragmentShaderPath config.
Proof.
  unfold parseCommandLine.
  apply (parseArguments_outcome (List.length (tl argv)) (tl argv) config).
  lia.
Qed.

Lemma parseCommandLine_applies_options_in_order_witness :
  let options := [("-ot", "euler"); ("-it", "1"); ("-kf", "0,0,0:0,0,0");
                  ("-ot", "quat")]%string in
  let config' :=
    setUseQuaternions
      (setKeyframeString
         (setUseBSpline (setUseQuaternions initialConfig false) true)
         "0,0,0:0,0,0") true in
  applyOptions options initialConfig = Some config'
  /\ parseCommandLine ("keyframes"%string :: spell options) initialConfig
     = (true, config', [])
  /\ parseCommandLine
       ("keyframes"%string :: spell options ++ ["-h"; "-zz"; "-ot"]%string)
       initialConfig
     = (true, setShowHelp config', [])
  /\ parseCommandLine ("keyframes"%string :: spell options ++ ["-m"%string])
       initialConfig
     = (false, config', ["Unknown argument: -m"%string]%list).
Proof.
  intros options config'.
  assert (Happly : applyOptions options initialConfig = Some config')
    by reflexivity.
  destruct (parseCommandLine_applies_options_in_order "keyframes" options
              initialConfig config' Happly) as (Hall & Hhelp & Hlast).
  split; [exact Happly|]. split; [exact Hall|]. split.
  - exact (Hhelp "-h"%string ["-zz"; "-ot"]%string (or_introl eq_refl)).
  - apply (Hlast "-m"%string). right. right. right. left. reflexivity.
Defined.
